(** * The toast notification store of [client/hooks/use-toast.js]

    A shallow embedding of the module: the reducer over the four actions,
    the removal scheduler ([toastTimeouts] and [addToRemoveQueue]), the
    listener registry with [dispatch], and the public facade ([genId],
    [toast], the effect of [useToast]).

    Reading of the source.  The file carries a few places where a token
    sequence is absent and the text does not parse or names an identifier
    that is bound nowhere ([type,], [open,], the missing else-branch of the
    two conditional expressions, the missing [: return] after the first two
    case labels).  Each such place is filled from the specification and
    marked [Modelled from the spec] below.  Every place where the text is
    well formed and all its identifiers are bound is embedded as written:
    in particular the predicate of [filter] in the REMOVE case
    ([t.id == action.toastId]) and the guard of the synthesized
    [onOpenChange] callback ([if (open) dismiss()]). *)

From stdpp Require Import base strings list gmap pretty.
From Stdlib Require Import NArith Lia.

Open Scope string_scope.
Open Scope list_scope.

(** ** Configuration *)

Definition TOAST_LIMIT : nat := 1.
Definition TOAST_REMOVE_DELAY : N := 1000000.
Definition MAX_SAFE_INTEGER : N := 9007199254740991.

(** ** Data model *)

(** Functions stored in a toast.  The callback that [toast] synthesizes is
    kept as the closure it is: its code is fixed and it captures the id.
    Every other function is opaque to the store and known by identity. *)
Inductive closure : Type :=
  | OnOpenChange (id : string)
  | Extern (h : nat).

(** Property values the store passes through without inspecting them. *)
Inductive value : Type :=
  | VUndefined
  | VBool (b : bool)
  | VStr (s : string)
  | VNum (n : Z)
  | VFun (c : closure).

Global Instance closure_eq_dec : EqDecision closure.
Proof. solve_decision. Defined.
Global Instance value_eq_dec : EqDecision value.
Proof. solve_decision. Defined.

(** [ToasterToast]: the mandatory string [id], and every other own property
    ([title], [description], [action], [open], [onOpenChange], ...) by name. *)
Record ToasterToast : Type := mkToast {
  id : string;
  fields : gmap string value
}.

(** [Partial<ToasterToast>]: the [id] may be absent. *)
Record Partial : Type := mkPartial {
  pid : option string;
  pfields : gmap string value
}.

Record State : Type := mkState { toasts : list ToasterToast }.

Inductive Action : Type :=
  | ADD_TOAST (toast : ToasterToast)
  | UPDATE_TOAST (toast : Partial)
  | DISMISS_TOAST (toastId : option string)
  | REMOVE_TOAST (toastId : option string).

Global Instance ToasterToast_eq_dec : EqDecision ToasterToast.
Proof. solve_decision. Defined.
Global Instance Partial_eq_dec : EqDecision Partial.
Proof. solve_decision. Defined.
Global Instance State_eq_dec : EqDecision State.
Proof. solve_decision. Defined.
Global Instance Action_eq_dec : EqDecision Action.
Proof. solve_decision. Defined.

(** The [open] property of a toast, [None] when the object has none. *)
Definition open_of (t : ToasterToast) : option value := fields t !! "open".

(** ** The process-wide store

    Module-level variables of the source, together with the part of the
    host that the module drives: the queue of timeouts that [setTimeout]
    registered and that have not fired yet, and the record of the calls
    made to listeners. *)
Record Store : Type := mkStore {
  count : N;                            (* let count = 0 *)
  toastTimeouts : gmap string nat;      (* id -> timeout handle *)
  pending : list (nat * string);        (* host: handle, captured toastId *)
  next_handle : nat;                    (* host: next handle of setTimeout *)
  memoryState : State;                  (* let memoryState = { toasts: [] } *)
  listeners : list nat;                 (* registered setState functions *)
  calls : list (nat * State)            (* listener invocations, oldest first *)
}.

Definition init : Store :=
  {| count := 0; toastTimeouts := ∅; pending := []; next_handle := 0;
     memoryState := mkState []; listeners := []; calls := [] |}.

(** ** A state monad over the store *)

Definition M (A : Type) : Type := Store → A * Store.

Definition ret {A} (a : A) : M A := λ σ, (a, σ).
Definition bind {A B} (m : M A) (k : A → M B) : M B :=
  λ σ, let '(a, σ') := m σ in k a σ'.
Definition gets {A} (f : Store → A) : M A := λ σ, (f σ, σ).
Definition exec {A} (m : M A) (σ : Store) : Store := (m σ).2.
Definition eval {A} (m : M A) (σ : Store) : A := (m σ).1.

Notation "'let*' x ':=' m 'in' k" := (bind m (λ x, k))
  (at level 10, x name, m at level 100, k at level 200, only parsing).
Notation "m '>>>' k" := (bind m (λ _, k))
  (at level 65, right associativity, only parsing).

(** [arr.forEach(f)] for an effectful [f]. *)
Fixpoint forEach {A} (f : A → M unit) (l : list A) : M unit :=
  match l with
  | [] => ret tt
  | x :: l' => f x >>> forEach f l'
  end.

(** ** Removal scheduler *)

(** [setTimeout(cb, TOAST_REMOVE_DELAY)] where [cb] captures [toastId]:
    the host queues the callback and hands out a fresh handle. *)
Definition setTimeout (toastId : string) : M nat := λ σ,
  (next_handle σ,
   {| count := count σ; toastTimeouts := toastTimeouts σ;
      pending := pending σ ++ [(next_handle σ, toastId)];
      next_handle := S (next_handle σ);
      memoryState := memoryState σ; listeners := listeners σ;
      calls := calls σ |}).

Definition set_timeouts (m : gmap string nat) : M unit := λ σ,
  (tt,
   {| count := count σ; toastTimeouts := m; pending := pending σ;
      next_handle := next_handle σ; memoryState := memoryState σ;
      listeners := listeners σ; calls := calls σ |}).

Definition addToRemoveQueue (toastId : string) : M unit :=
  let* timeouts := gets toastTimeouts in
  match timeouts !! toastId with
  | Some _ => ret tt
  | None =>
      let* timeout := setTimeout toastId in
      set_timeouts (<[toastId := timeout]> timeouts)
  end.

(** ** Reducer *)

(** [{ ...t, ...p }]: own properties of [p] win over those of [t]. *)
Definition merge (t : ToasterToast) (p : Partial) : ToasterToast :=
  {| id := default (id t) (pid p); fields := pfields p ∪ fields t |}.

(** Modelled from the spec: the value that DISMISS writes to [open]; the
    source reads [open,] there, with no binding of that name in scope.
    "DISMISS (sets open=false)". *)
Definition DISMISS_OPEN : value := VBool false.

(** [{ ...t, open: DISMISS_OPEN }] *)
Definition close (t : ToasterToast) : ToasterToast :=
  {| id := id t; fields := <["open" := DISMISS_OPEN]> (fields t) |}.

(** [if (toastId)]: [undefined] and the empty string are falsy. *)
Definition truthy (toastId : option string) : bool :=
  match toastId with
  | None => false
  | Some s => negb (bool_decide (s = ""))
  end.

(** [t.id === toastId || toastId === undefined] *)
Definition dismiss_matches (toastId : option string) (t : ToasterToast) : bool :=
  match toastId with
  | None => true
  | Some s => bool_decide (id t = s)
  end.

(** [t.id === action.toast.id]; an absent id is [undefined], which no
    string equals. *)
Definition update_matches (p : Partial) (t : ToasterToast) : bool :=
  match pid p with
  | None => false
  | Some s => bool_decide (id t = s)
  end.

(** [t.id == action.toastId] on two strings, where loose and strict
    equality coincide. *)
Definition remove_keeps (toastId : string) (t : ToasterToast) : bool :=
  bool_decide (id t = toastId).

(** Modelled from the spec: the else-branch of the conditional expressions
    in the UPDATE and DISMISS cases, which the source leaves out; a toast
    that does not match is returned as it is ("others unchanged"). *)
Definition unmatched (t : ToasterToast) : ToasterToast := t.

(** The reducer.  Only the DISMISS case touches the store (through
    [addToRemoveQueue]); the result state is returned, not stored. *)
Definition reducer (state : State) (action : Action) : M State :=
  match action with
  | ADD_TOAST toast =>
      ret (mkState (take TOAST_LIMIT (toast :: toasts state)))
  | UPDATE_TOAST p =>
      ret (mkState
             (map (λ t, if update_matches p t then merge t p else unmatched t)
                  (toasts state)))
  | DISMISS_TOAST toastId =>
      (match toastId with
       | Some s =>
           if truthy toastId then addToRemoveQueue s
           else forEach (λ toast, addToRemoveQueue (id toast)) (toasts state)
       | None => forEach (λ toast, addToRemoveQueue (id toast)) (toasts state)
       end) >>>
      ret (mkState
             (map (λ t, if dismiss_matches toastId t then close t
                        else unmatched t)
                  (toasts state)))
  | REMOVE_TOAST None => ret (mkState [])
  | REMOVE_TOAST (Some toastId) =>
      ret (mkState (base.filter (λ t, remove_keeps toastId t = true) (toasts state)))
  end.

(** ** Listener registry and dispatch *)

Definition set_memoryState (s : State) : M unit := λ σ,
  (tt,
   {| count := count σ; toastTimeouts := toastTimeouts σ; pending := pending σ;
      next_handle := next_handle σ; memoryState := s;
      listeners := listeners σ; calls := calls σ |}).

Definition set_listeners (ls : list nat) : M unit := λ σ,
  (tt,
   {| count := count σ; toastTimeouts := toastTimeouts σ; pending := pending σ;
      next_handle := next_handle σ; memoryState := memoryState σ;
      listeners := ls; calls := calls σ |}).

Definition set_pending (q : list (nat * string)) : M unit := λ σ,
  (tt,
   {| count := count σ; toastTimeouts := toastTimeouts σ; pending := q;
      next_handle := next_handle σ; memoryState := memoryState σ;
      listeners := listeners σ; calls := calls σ |}).

Definition set_count (c : N) : M unit := λ σ,
  (tt,
   {| count := c; toastTimeouts := toastTimeouts σ; pending := pending σ;
      next_handle := next_handle σ; memoryState := memoryState σ;
      listeners := listeners σ; calls := calls σ |}).

(** [listener(memoryState)]: the call is recorded with its argument. *)
Definition call_listener (listener : nat) : M unit := λ σ,
  (tt,
   {| count := count σ; toastTimeouts := toastTimeouts σ; pending := pending σ;
      next_handle := next_handle σ; memoryState := memoryState σ;
      listeners := listeners σ;
      calls := calls σ ++ [(listener, memoryState σ)] |}).

Definition dispatch (action : Action) : M unit :=
  let* state := gets memoryState in
  let* s := reducer state action in
  set_memoryState s >>>
  let* ls := gets listeners in
  forEach call_listener ls.

(** The effect of [useToast] for the component whose state setter is
    [setState]: [listeners.push(setState)], and its cleanup:
    [indexOf] then [splice(index, 1)]. *)
Definition subscribe (setState : nat) : M unit :=
  let* ls := gets listeners in
  set_listeners (ls ++ [setState]).

Definition indexOf (ls : list nat) (x : nat) : option nat :=
  fst <$> list_find (λ y, y = x) ls.

Definition unsubscribe (setState : nat) : M unit :=
  let* ls := gets listeners in
  match indexOf ls setState with
  | Some index => set_listeners (delete index ls)
  | None => ret tt
  end.

(** ** Action types at the dispatch sites

    Every [dispatch({ type, ... })] of the source leaves the type out. *)

(** Modelled from the spec: the action that the timeout callback
    dispatches: "When the timer fires: remove the id from the pending set,
    then dispatch REMOVE for that id". *)
Definition timer_action (toastId : string) : Action :=
  REMOVE_TOAST (Some toastId).

(** Modelled from the spec: the action of the [update] closure: "UPDATE
    (partial merge keyed by id)". *)
Definition update_action (p : Partial) : Action := UPDATE_TOAST p.

(** Modelled from the spec: the action of the [dismiss] closure and of the
    [dismiss] of [useToast]: "dispatches DISMISS with the given id or, if
    omitted, targets every current toast". *)
Definition dismiss_action (toastId : option string) : Action :=
  DISMISS_TOAST toastId.

(** Modelled from the spec: the action that [toast] dispatches with the
    toast it built: "dispatches ADD". *)
Definition add_action (t : ToasterToast) : Action := ADD_TOAST t.

(** ** Timer expiry

    The host runs the callback of the pending timeout at position [i] of
    its queue: [toastTimeouts.delete(toastId)], then the dispatch. *)
Definition fire (i : nat) : M unit :=
  let* queue := gets pending in
  match queue !! i with
  | Some (_, toastId) =>
      set_pending (delete i queue) >>>
      (let* timeouts := gets toastTimeouts in
       set_timeouts (delete toastId timeouts)) >>>
      dispatch (timer_action toastId)
  | None => ret tt
  end.

(** ** Public facade *)

(** [count = (count + 1) % Number.MAX_SAFE_INTEGER; return count.toString()] *)
Definition genId : M string :=
  let* c := gets count in
  set_count ((c + 1) mod MAX_SAFE_INTEGER)%N >>>
  let* c' := gets count in
  ret (pretty c').

(** Modelled from the spec: the value of [open] in a toast built by
    [toast], which the source leaves as [open,]: "synthesizes a Toast with
    open=true". *)
Definition TOAST_OPEN : value := VBool true.

(** [update] of the toast with this id: [{ ...props, id }]. *)
Definition toast_update (id : string) (props : gmap string value) : M unit :=
  dispatch (update_action {| pid := Some id; pfields := props |}).

(** [dismiss] of the toast with this id. *)
Definition toast_dismiss (id : string) : M unit :=
  dispatch (dismiss_action (Some id)).

(** [(open) => { if (open) dismiss(); }] of the toast with this id. *)
Definition onOpenChange (id : string) (open : bool) : M unit :=
  if open then toast_dismiss id else ret tt.

(** [toast({ ...props })]; [props] holds the properties other than [id],
    which the literal overrides in any case.  The result is the id, to
    which [toast_update] and [toast_dismiss] are bound. *)
Definition toast (props : gmap string value) : M string :=
  let* id := genId in
  dispatch (add_action
    {| id := id;
       fields := <["onOpenChange" := VFun (OnOpenChange id)]>
                   (<["open" := TOAST_OPEN]> props) |}) >>>
  ret id.

(** [dismiss: (toastId?) => dispatch({ type, toastId })] of [useToast]. *)
Definition useToast_dismiss (toastId : option string) : M unit :=
  dispatch (dismiss_action toastId).

(** ** Runs of the store *)

Inductive event : Type :=
  | EDispatch (a : Action)
  | EToast (props : gmap string value)
  | EOpenChange (id : string) (open : bool)
  | EFire (i : nat)
  | EMount (setState : nat)
  | ECleanup (setState : nat).

Definition do_event (e : event) : M unit :=
  match e with
  | EDispatch a => dispatch a
  | EToast props => toast props >>> ret tt
  | EOpenChange id open => onOpenChange id open
  | EFire i => fire i
  | EMount l => subscribe l
  | ECleanup l => unsubscribe l
  end.


(** Stores that the module can be in.  React runs the cleanup of an effect
    before it runs that effect again, so a component's setter is pushed
    only while it is not in the registry. *)
Inductive reachable : Store → Prop :=
  | reach_init : reachable init
  | reach_event σ e :
      reachable σ →
      (∀ l, e = EMount l → l ∉ listeners σ) →
      reachable (exec (do_event e) σ).

(** Folding the reducer over a list of actions, from a given state. *)
Fixpoint reduce_all (state : State) (actions : list Action) : M State :=
  match actions with
  | [] => ret state
  | a :: actions' => let* s := reducer state a in reduce_all s actions'
  end.

(** Number of pending host timeouts whose callback captured [toastId]. *)
Definition pending_for (toastId : string) (σ : Store) : nat :=
  length (base.filter (λ p, p.2 = toastId) (pending σ)).

(** Each id has one pending timeout when it is in [toastTimeouts], none
    otherwise. *)
Definition timers_ok (σ : Store) : Prop :=
  ∀ toastId,
    pending_for toastId σ =
      match toastTimeouts σ !! toastId with Some _ => 1 | None => 0 end.

(** The side-effect step of the DISMISS case on its own: what is scheduled
    before the new state is computed. *)
Definition dismiss_schedule (toastId : option string) (s : State) : M unit :=
  match toastId with
  | Some X =>
      if truthy toastId then addToRemoveQueue X
      else forEach (λ toast, addToRemoveQueue (id toast)) (toasts s)
  | None => forEach (λ toast, addToRemoveQueue (id toast)) (toasts s)
  end.


(** [open] is the boolean [true]. *)
Definition is_open (t : ToasterToast) : Prop := open_of t = Some (VBool true).

(** No toast with this id is open. *)
Definition closed_in (X : string) (s : State) : Prop :=
  ∀ t, t ∈ toasts s → id t = X → ¬ is_open t.

(** Actions that themselves carry [open: true] for the id [X]: an ADD of
    such a toast, or an UPDATE whose partial names [X] and has the
    property. *)
Definition supplies_open (X : string) (a : Action) : Prop :=
  match a with
  | ADD_TOAST t => id t = X ∧ is_open t
  | UPDATE_TOAST p => pid p = Some X ∧ pfields p !! "open" = Some (VBool true)
  | DISMISS_TOAST _ | REMOVE_TOAST _ => False
  end.

(** ** Further harness definitions for the toast store *)

(** [n] successive calls of [genId], with the ids they return, in order. *)
Fixpoint genIds (n : nat) : M (list string) :=
  match n with
  | 0 => ret []
  | S n' =>
      let* i := genId in
      let* rest := genIds n' in
      ret (i :: rest)
  end.

(** The map [toastTimeouts] and the host's queue describe the same
    timeouts: an id maps to a handle exactly when that handle is pending
    for that id; pending handles are distinct and were all handed out. *)
Definition timers_linked (σ : Store) : Prop :=
  (∀ X h, toastTimeouts σ !! X = Some h ↔ (h, X) ∈ pending σ) ∧
  NoDup (pending σ).*1 ∧
  (∀ h X, (h, X) ∈ pending σ → h < next_handle σ).

(** ** Sidebar navigation ([client/components/ui/simplified-sidebar-nav.jsx])

    The part of [SimplifiedSidebarNav] that decides what is shown: the
    table of navigation items, the role filter and the active-route test.
    The filter and the test read only [path] and [roles]; [label] keeps the
    expression of the source as data (the path looked up in [translations]
    and the literal after [||], if any) and [icon] the name of the icon
    component. *)

Record NavItem : Type := mkNavItem {
  label : list string * option string;
  path : string;
  icon : string;
  roles : list string
}.

(** The signed-in user of [state.auth], of which only [role] is read. *)
Record User : Type := mkUser { role : string }.

Definition navigationItems : list NavItem :=
  [ mkNavItem (["nav"; "home"], None) "/" "Home"
      ["CITIZEN"; "WARD_OFFICER"; "MAINTENANCE_TEAM"; "ADMINISTRATOR"; "GUEST"];
    mkNavItem (["nav"; "dashboard"], None) "/dashboard" "BarChart3"
      ["CITIZEN"; "WARD_OFFICER"; "MAINTENANCE_TEAM"; "ADMINISTRATOR"];
    mkNavItem (["nav"; "complaints"], None) "/complaints" "FileText"
      ["CITIZEN"; "WARD_OFFICER"; "MAINTENANCE_TEAM"; "ADMINISTRATOR"];
    mkNavItem (["dashboard"; "pendingTasks"], Some "My Tasks") "/tasks" "Calendar"
      ["WARD_OFFICER"; "MAINTENANCE_TEAM"];
    mkNavItem (["nav"; "ward"], Some "Ward Management") "/ward" "MapPin"
      ["WARD_OFFICER"];
    mkNavItem (["nav"; "maintenance"], Some "Maintenance") "/maintenance" "Wrench"
      ["MAINTENANCE_TEAM"];
    mkNavItem (["messages"; "complaintRegistered"], Some "Communication")
      "/messages" "MessageSquare"
      ["WARD_OFFICER"; "MAINTENANCE_TEAM"];
    mkNavItem (["nav"; "reports"], None) "/reports" "TrendingUp"
      ["WARD_OFFICER"; "ADMINISTRATOR"; "MAINTENANCE_TEAM"];
    mkNavItem (["nav"; "users"], None) "/admin/users" "Users"
      ["ADMINISTRATOR"];
    mkNavItem (["settings"; "generalSettings"], Some "System Config")
      "/admin/config" "Database"
      ["ADMINISTRATOR"] ].

(** The callback of [navigationItems.filter]: no user, nothing; the home
    item is hidden from any user; otherwise [item.roles.includes(user.role)]. *)
Definition nav_item_shown (user : option User) (item : NavItem) : bool :=
  match user with
  | None => false
  | Some u =>
      if bool_decide (path item = "/") then false
      else bool_decide (role u ∈ roles item)
  end.

Definition filteredNavItems (user : option User) : list NavItem :=
  base.filter (λ item, nav_item_shown user item = true) navigationItems.

(** [isActiveRoute(path)] at the location [pathname]: the root only when
    the location is the root, any other path when the location starts with
    it. *)
Definition isActiveRoute (pathname : string) (path : string) : bool :=
  if bool_decide (path = "/") then bool_decide (pathname = "/")
  else String.prefix path pathname.

(** ** Dispatches along a run *)



(** * Properties *)

(** ** The monad *)

Lemma exec_bind {A B} (m : M A) (k : A → M B) σ :
  exec (bind m k) σ = exec (k (eval m σ)) (exec m σ).
Proof. unfold exec, eval, bind. by destruct (m σ). Qed.

Lemma eval_bind {A B} (m : M A) (k : A → M B) σ :
  eval (bind m k) σ = eval (k (eval m σ)) (exec m σ).
Proof. unfold exec, eval, bind. by destruct (m σ). Qed.

Lemma exec_ret {A} (a : A) σ : exec (ret a) σ = σ.
Proof. done. Qed.

Lemma forEach_app {A} (f : A → M unit) l1 l2 σ :
  exec (forEach f (l1 ++ l2)) σ = exec (forEach f l2) (exec (forEach f l1) σ).
Proof.
  revert σ. induction l1 as [|x l1 IH]; intros σ; [done|].
  simpl. by rewrite !exec_bind, IH.
Qed.

(** ** The removal scheduler *)

Section scheduler.
Implicit Types (σ : Store) (X Y : string).

Lemma addToRemoveQueue_pending_noop σ X :
  is_Some (toastTimeouts σ !! X) → addToRemoveQueue X σ = (tt, σ).
Proof.
  intros [h Hh]. unfold addToRemoveQueue, bind, gets. by rewrite Hh.
Qed.

Lemma addToRemoveQueue_pending_exec σ X :
  is_Some (toastTimeouts σ !! X) → exec (addToRemoveQueue X) σ = σ.
Proof.
  intros HX. unfold exec. by rewrite addToRemoveQueue_pending_noop.
Qed.

Lemma addToRemoveQueue_fresh σ X :
  toastTimeouts σ !! X = None →
  exec (addToRemoveQueue X) σ =
    {| count := count σ;
       toastTimeouts := <[X := next_handle σ]> (toastTimeouts σ);
       pending := pending σ ++ [(next_handle σ, X)];
       next_handle := S (next_handle σ);
       memoryState := memoryState σ; listeners := listeners σ;
       calls := calls σ |}.
Proof.
  intros HX. unfold exec, addToRemoveQueue, bind, gets. by rewrite HX.
Qed.

Lemma addToRemoveQueue_scheduled σ X :
  is_Some (toastTimeouts (exec (addToRemoveQueue X) σ) !! X).
Proof.
  destruct (toastTimeouts σ !! X) as [h|] eqn:HX.
  - rewrite addToRemoveQueue_pending_exec by eauto. simpl. eauto.
  - rewrite addToRemoveQueue_fresh by done. simpl.
    rewrite lookup_insert_eq. eauto.
Qed.

Lemma addToRemoveQueue_keeps σ X Y :
  is_Some (toastTimeouts σ !! Y) →
  is_Some (toastTimeouts (exec (addToRemoveQueue X) σ) !! Y).
Proof.
  intros HY. destruct (toastTimeouts σ !! X) as [h|] eqn:HX.
  - by rewrite addToRemoveQueue_pending_exec by eauto.
  - rewrite addToRemoveQueue_fresh by done. simpl.
    destruct (decide (X = Y)) as [->|Hne].
    + rewrite lookup_insert_eq. eauto.
    + by rewrite lookup_insert_ne.
Qed.

Lemma addToRemoveQueue_frame σ X :
  let σ' := exec (addToRemoveQueue X) σ in
  count σ' = count σ ∧ memoryState σ' = memoryState σ ∧
  listeners σ' = listeners σ ∧ calls σ' = calls σ.
Proof.
  destruct (toastTimeouts σ !! X) as [h|] eqn:HX; simpl.
  - by rewrite addToRemoveQueue_pending_exec by eauto.
  - by rewrite addToRemoveQueue_fresh by done.
Qed.

Lemma pending_for_snoc σ (q : list (nat * string)) h X Y :
  pending σ = q ++ [(h, Y)] →
  pending_for X σ =
    length (base.filter (λ p : nat * string, p.2 = X) q)
    + (if decide (Y = X) then 1 else 0).
Proof.
  intros Hq. unfold pending_for. rewrite Hq, filter_app, length_app.
  f_equal. rewrite filter_cons, filter_nil. simpl.
  by destruct (decide (Y = X)).
Qed.

Lemma addToRemoveQueue_timers_ok σ X :
  timers_ok σ → timers_ok (exec (addToRemoveQueue X) σ).
Proof.
  intros Hok. destruct (toastTimeouts σ !! X) as [h|] eqn:HX.
  - by rewrite addToRemoveQueue_pending_exec by eauto.
  - rewrite addToRemoveQueue_fresh by done. intros Y.
    erewrite pending_for_snoc by done. simpl.
    fold (pending_for Y σ). rewrite (Hok Y).
    destruct (decide (X = Y)) as [->|Hne].
    + by rewrite lookup_insert_eq, HX.
    + rewrite lookup_insert_ne by done.
      destruct (toastTimeouts σ !! Y); lia.
Qed.

Lemma forEach_addToRemoveQueue_timers_ok σ (ts : list ToasterToast) :
  timers_ok σ →
  timers_ok (exec (forEach (λ toast, addToRemoveQueue (id toast)) ts) σ).
Proof.
  revert σ. induction ts as [|t ts IH]; intros σ Hok; [done|].
  simpl. rewrite exec_bind. by apply IH, addToRemoveQueue_timers_ok.
Qed.

Lemma forEach_addToRemoveQueue_keeps σ (ts : list ToasterToast) Y :
  is_Some (toastTimeouts σ !! Y) →
  is_Some (toastTimeouts
             (exec (forEach (λ toast, addToRemoveQueue (id toast)) ts) σ) !! Y).
Proof.
  revert σ. induction ts as [|t ts IH]; intros σ HY; [done|].
  simpl. rewrite exec_bind. by apply IH, addToRemoveQueue_keeps.
Qed.

Lemma forEach_addToRemoveQueue_scheduled σ (ts : list ToasterToast) t :
  t ∈ ts →
  is_Some (toastTimeouts
             (exec (forEach (λ toast, addToRemoveQueue (id toast)) ts) σ)
           !! id t).
Proof.
  revert σ. induction ts as [|t' ts IH]; intros σ Hin.
  - by apply elem_of_nil in Hin.
  - simpl. rewrite exec_bind. apply elem_of_cons in Hin as [->|Hin].
    + apply forEach_addToRemoveQueue_keeps, addToRemoveQueue_scheduled.
    + by apply IH.
Qed.

Lemma forEach_addToRemoveQueue_frame σ (ts : list ToasterToast) :
  let σ' := exec (forEach (λ toast, addToRemoveQueue (id toast)) ts) σ in
  count σ' = count σ ∧ memoryState σ' = memoryState σ ∧
  listeners σ' = listeners σ ∧ calls σ' = calls σ.
Proof.
  revert σ. induction ts as [|t ts IH]; intros σ; [done|].
  simpl. rewrite exec_bind.
  destruct (IH (exec (addToRemoveQueue (id t)) σ)) as (-> & -> & -> & ->).
  apply addToRemoveQueue_frame.
Qed.
End scheduler.

(** ** Frame and invariant lemmas for the reducer and the store operations *)

Section invariants.
Implicit Types (σ : Store) (s : State) (a : Action) (X Y : string).

Lemma reducer_dismiss_exec σ s toastId :
  exec (reducer s (DISMISS_TOAST toastId)) σ =
  exec (dismiss_schedule toastId s) σ.
Proof. simpl. by rewrite exec_bind. Qed.

Lemma reducer_dismiss_eval σ s toastId :
  eval (reducer s (DISMISS_TOAST toastId)) σ =
  mkState (map (λ t, if dismiss_matches toastId t then close t else t)
               (toasts s)).
Proof. simpl. by rewrite eval_bind. Qed.

Lemma dismiss_schedule_timers_ok σ s toastId :
  timers_ok σ → timers_ok (exec (dismiss_schedule toastId s) σ).
Proof.
  intros Hok. unfold dismiss_schedule.
  destruct toastId as [X|]; [destruct (truthy _)|];
    auto using addToRemoveQueue_timers_ok,
               forEach_addToRemoveQueue_timers_ok.
Qed.

Lemma dismiss_schedule_frame σ s toastId :
  let σ' := exec (dismiss_schedule toastId s) σ in
  count σ' = count σ ∧ memoryState σ' = memoryState σ ∧
  listeners σ' = listeners σ ∧ calls σ' = calls σ.
Proof.
  unfold dismiss_schedule.
  destruct toastId as [X|]; [destruct (truthy _)|];
    auto using addToRemoveQueue_frame, forEach_addToRemoveQueue_frame.
Qed.

(** Outside DISMISS the reducer is pure. *)
Lemma reducer_pure σ s a :
  (∀ toastId, a ≠ DISMISS_TOAST toastId) → exec (reducer s a) σ = σ.
Proof. intros Ha. destruct a as [t|p|o|[X|]]; try done. by destruct (Ha o). Qed.

Lemma reducer_timers_ok σ s a :
  timers_ok σ → timers_ok (exec (reducer s a) σ).
Proof.
  intros Hok. destruct a as [t|p|o|[X|]]; try done.
  rewrite reducer_dismiss_exec. by apply dismiss_schedule_timers_ok.
Qed.

Lemma reducer_frame σ s a :
  let σ' := exec (reducer s a) σ in
  count σ' = count σ ∧ memoryState σ' = memoryState σ ∧
  listeners σ' = listeners σ ∧ calls σ' = calls σ.
Proof.
  destruct a as [t|p|o|[X|]]; try done.
  cbv zeta. rewrite reducer_dismiss_exec. apply dismiss_schedule_frame.
Qed.

(** Calling the listeners touches only the call record. *)
Lemma forEach_call_listener σ (ls : list nat) :
  exec (forEach call_listener ls) σ =
    {| count := count σ; toastTimeouts := toastTimeouts σ;
       pending := pending σ; next_handle := next_handle σ;
       memoryState := memoryState σ; listeners := listeners σ;
       calls := calls σ ++ map (λ l, (l, memoryState σ)) ls |}.
Proof.
  revert σ. induction ls as [|l ls IH]; intros σ.
  - simpl. rewrite app_nil_r. by destruct σ.
  - simpl. rewrite exec_bind, IH. simpl. by rewrite <- app_assoc.
Qed.

(** [dispatch], unfolded: reducer, then the assignment, then the calls. *)
Lemma dispatch_unfold σ a :
  exec (dispatch a) σ =
    let σ1 := exec (reducer (memoryState σ) a) σ in
    let s := eval (reducer (memoryState σ) a) σ in
    {| count := count σ1; toastTimeouts := toastTimeouts σ1;
       pending := pending σ1; next_handle := next_handle σ1;
       memoryState := s; listeners := listeners σ1;
       calls := calls σ ++ map (λ l, (l, s)) (listeners σ) |}.
Proof.
  unfold dispatch. rewrite !exec_bind, forEach_call_listener.
  destruct (reducer_frame σ (memoryState σ) a) as (_ & _ & Hl & Hc).
  cbv zeta. rewrite <- Hl, <- Hc. reflexivity.
Qed.

Lemma timers_ok_ext σ σ' :
  toastTimeouts σ' = toastTimeouts σ → pending σ' = pending σ →
  timers_ok σ → timers_ok σ'.
Proof.
  intros Hm Hq Hok X. unfold pending_for. rewrite Hm, Hq. apply Hok.
Qed.

Lemma dispatch_timers_ok σ a :
  timers_ok σ → timers_ok (exec (dispatch a) σ).
Proof.
  intros Hok. rewrite dispatch_unfold.
  eapply timers_ok_ext; [| |by apply (reducer_timers_ok σ (memoryState σ) a)];
    done.
Qed.


Lemma filter_delete_length {A} (P : A → Prop) `{!∀ x, Decision (P x)}
    (l : list A) i x :
  l !! i = Some x →
  length (base.filter P l) =
    length (base.filter P (delete i l)) + (if decide (P x) then 1 else 0).
Proof.
  intros Hi. rewrite <- (take_drop_middle l i x Hi) at 1.
  rewrite delete_take_drop, !filter_app, !length_app, filter_cons.
  destruct (decide (P x)); simpl; lia.
Qed.

Lemma fire_timers_ok σ i :
  timers_ok σ → timers_ok (exec (fire i) σ).
Proof.
  intros Hok. unfold fire. rewrite exec_bind.
  change (eval (gets pending) σ) with (pending σ).
  change (exec (gets pending) σ) with σ.
  destruct (pending σ !! i) as [[h X]|] eqn:Hi; [|done].
  rewrite !exec_bind. apply dispatch_timers_ok.
  intros Y. unfold pending_for. simpl.
  change (eval (gets toastTimeouts) _) with (toastTimeouts σ).
  pose proof (Hok Y) as HY. unfold pending_for in HY.
  rewrite (filter_delete_length _ _ _ _ Hi) in HY. simpl in HY.
  destruct (decide (X = Y)) as [->|Hne].
  - rewrite lookup_delete_eq.
    destruct (toastTimeouts σ !! Y); lia.
  - by rewrite lookup_delete_ne, <- HY, Nat.add_0_r.
Qed.
End invariants.

(** ** The listener registry *)

Section registry.
Implicit Types (σ : Store) (l : nat) (ls : list nat).

Lemma indexOf_None ls l : indexOf ls l = None ↔ l ∉ ls.
Proof.
  unfold indexOf. rewrite fmap_None, list_find_None, Forall_forall.
  split.
  - intros H Hin. by apply (H l).
  - intros H x Hx ->. done.
Qed.

Lemma indexOf_Some ls l i :
  indexOf ls l = Some i → ls !! i = Some l ∧ l ∉ take i ls.
Proof.
  unfold indexOf. intros H. apply fmap_Some in H as [[j y] [Hf ->]].
  apply list_find_Some in Hf as (Hj & -> & Hfirst). simpl. split; [done|].
  intros Hin. apply list_elem_of_lookup in Hin as [k Hk].
  pose proof (lookup_lt_Some _ _ _ Hk) as Hlt. rewrite length_take in Hlt.
  rewrite lookup_take_lt in Hk by lia.
  by apply (Hfirst k l Hk); [lia|].
Qed.

Lemma subscribe_exec σ l :
  exec (subscribe l) σ =
    {| count := count σ; toastTimeouts := toastTimeouts σ;
       pending := pending σ; next_handle := next_handle σ;
       memoryState := memoryState σ; listeners := listeners σ ++ [l];
       calls := calls σ |}.
Proof. done. Qed.

Lemma unsubscribe_absent σ l : l ∉ listeners σ → unsubscribe l σ = (tt, σ).
Proof.
  intros Hl. apply indexOf_None in Hl.
  unfold unsubscribe, bind, gets. by rewrite Hl.
Qed.

Lemma unsubscribe_frame σ l :
  let σ' := exec (unsubscribe l) σ in
  count σ' = count σ ∧ toastTimeouts σ' = toastTimeouts σ ∧
  pending σ' = pending σ ∧ memoryState σ' = memoryState σ ∧
  calls σ' = calls σ.
Proof.
  unfold exec, unsubscribe, bind, gets.
  by destruct (indexOf (listeners σ) l).
Qed.

Lemma unsubscribe_listeners σ l :
  listeners (exec (unsubscribe l) σ) =
    match indexOf (listeners σ) l with
    | Some i => delete i (listeners σ)
    | None => listeners σ
    end.
Proof.
  unfold exec, unsubscribe, bind, gets.
  by destruct (indexOf (listeners σ) l).
Qed.



End registry.

(** ** Events and reachable stores *)

Section runs.
Implicit Types (σ : Store) (l : nat) (e : event) (es : list event).

Lemma genId_exec σ :
  exec genId σ =
    {| count := ((count σ + 1) mod MAX_SAFE_INTEGER)%N;
       toastTimeouts := toastTimeouts σ; pending := pending σ;
       next_handle := next_handle σ; memoryState := memoryState σ;
       listeners := listeners σ; calls := calls σ |}.
Proof. done. Qed.

Lemma genId_eval σ :
  eval genId σ = pretty ((count σ + 1) mod MAX_SAFE_INTEGER)%N.
Proof. done. Qed.

Lemma toast_exec σ props :
  exec (toast props) σ =
    exec (dispatch (ADD_TOAST
            {| id := eval genId σ;
               fields := <["onOpenChange" := VFun (OnOpenChange (eval genId σ))]>
                           (<["open" := TOAST_OPEN]> props) |}))
         (exec genId σ).
Proof. unfold toast. by rewrite !exec_bind. Qed.

Lemma toast_eval σ props : eval (toast props) σ = eval genId σ.
Proof. unfold toast. by rewrite !eval_bind. Qed.

Lemma fire_exec σ i :
  exec (fire i) σ =
    match pending σ !! i with
    | Some (_, X) =>
        exec (dispatch (REMOVE_TOAST (Some X)))
          {| count := count σ;
             toastTimeouts := delete X (toastTimeouts σ);
             pending := delete i (pending σ);
             next_handle := next_handle σ; memoryState := memoryState σ;
             listeners := listeners σ; calls := calls σ |}
    | None => σ
    end.
Proof.
  unfold fire. rewrite exec_bind.
  change (eval (gets pending) σ) with (pending σ).
  change (exec (gets pending) σ) with σ.
  destruct (pending σ !! i) as [[h X]|]; [|done].
  by rewrite !exec_bind.
Qed.

Lemma do_event_timers_ok σ e :
  timers_ok σ → timers_ok (exec (do_event e) σ).
Proof.
  intros Hok. destruct e as [a|props|X [|]|i|l|l];
    cbn [do_event]; unfold onOpenChange, toast_dismiss, dismiss_action.
  - by apply dispatch_timers_ok.
  - rewrite exec_bind, toast_exec. by apply dispatch_timers_ok.
  - by apply dispatch_timers_ok.
  - done.
  - by apply fire_timers_ok.
  - done.
  - eapply timers_ok_ext; [..|exact Hok]; apply unsubscribe_frame.
Qed.








Lemma reachable_timers_ok σ : reachable σ → timers_ok σ.
Proof.
  induction 1 as [|σ e _ IH He]; [done|]. by apply do_event_timers_ok.
Qed.
End runs.

(** ** The reducer, action by action *)

Section reducer_facts.
Implicit Types (σ : Store) (s : State) (a : Action) (X : string)
  (t : ToasterToast) (p : Partial).

Lemma reduce_all_app s (l1 l2 : list Action) σ :
  eval (reduce_all s (l1 ++ l2)) σ =
  eval (reduce_all (eval (reduce_all s l1) σ) l2) (exec (reduce_all s l1) σ).
Proof.
  revert s σ. induction l1 as [|a l1 IH]; intros s σ; [done|].
  simpl. by rewrite !eval_bind, !exec_bind, IH.
Qed.

Lemma reducer_add s t σ :
  eval (reducer s (ADD_TOAST t)) σ = mkState [t].
Proof. done. Qed.

Lemma reducer_update s p σ :
  eval (reducer s (UPDATE_TOAST p)) σ =
  mkState (map (λ t, if update_matches p t then merge t p else t) (toasts s)).
Proof. done. Qed.

Lemma reducer_remove s X σ :
  eval (reducer s (REMOVE_TOAST (Some X))) σ =
  mkState (base.filter (λ t, id t = X) (toasts s)).
Proof.
  simpl. unfold eval, ret. simpl. f_equal.
  induction (toasts s) as [|t l IH]; [done|].
  rewrite !filter_cons, IH. unfold remove_keeps.
  destruct (decide (id t = X)) as [Heq|Hne].
  - rewrite bool_decide_eq_true_2 by done. by rewrite decide_True.
  - rewrite bool_decide_eq_false_2 by done. by rewrite decide_False.
Qed.

Lemma merge_lookup t p k :
  fields (merge t p) !! k =
    match pfields p !! k with
    | Some v => Some v
    | None => fields t !! k
    end.
Proof.
  unfold merge. simpl. rewrite lookup_union.
  destruct (pfields p !! k), (fields t !! k); done.
Qed.

Lemma close_lookup t k :
  fields (close t) !! k =
    if decide (k = "open") then Some (VBool false) else fields t !! k.
Proof.
  unfold close. simpl. destruct (decide (k = "open")) as [->|Hne].
  - by rewrite lookup_insert_eq.
  - by rewrite lookup_insert_ne.
Qed.

(** One step that does not supply [open: true] for [X] keeps [X] closed. *)
Lemma reducer_keeps_closed s a σ X :
  ¬ supplies_open X a → closed_in X s → closed_in X (eval (reducer s a) σ).
Proof.
  intros Ha Hs t' Hin Hid Hopen. destruct a as [t|p|o|[Y|]].
  - rewrite reducer_add in Hin. simpl in Hin.
    apply list_elem_of_singleton in Hin as ->. by apply Ha.
  - rewrite reducer_update in Hin. simpl in Hin.
    apply list_elem_of_fmap in Hin as (t & -> & Hin).
    unfold update_matches in *.
    destruct (pid p) as [Y|] eqn:Hp; [|by apply (Hs t)].
    destruct (bool_decide (id t = Y)) eqn:HY; [|by apply (Hs t)].
    apply bool_decide_eq_true_1 in HY.
    assert (id t = X) as HtX.
    { revert Hid. unfold merge. simpl. rewrite Hp. simpl. congruence. }
    unfold is_open, open_of in Hopen. rewrite merge_lookup in Hopen.
    destruct (pfields p !! "open") as [v|] eqn:Hv.
    + apply Ha. simpl. split; congruence.
    + by apply (Hs t).
  - rewrite reducer_dismiss_eval in Hin. simpl in Hin.
    apply list_elem_of_fmap in Hin as (t & -> & Hin).
    destruct (dismiss_matches o t); [|by apply (Hs t)].
    unfold is_open, open_of in Hopen. by rewrite close_lookup in Hopen.
  - rewrite reducer_remove in Hin. simpl in Hin.
    apply list_elem_of_filter in Hin as [_ Hin]. by apply (Hs t').
  - by apply elem_of_nil in Hin.
Qed.
End reducer_facts.

(** ** Claims about the reducer *)

(** C1 (the code departs from it).  REMOVE with an id applies [filter] with
    the predicate [t.id == action.toastId], so the result holds exactly the
    toasts that carry the id, in order, and drops every other one: from
    toasts "1" and "2", removing "1" leaves the toast "1".  REMOVE without
    an id does return the empty sequence. *)
Theorem C1_remove_by_id_keeps_matching_entries :
  (∀ s X σ,
     toasts (eval (reducer s (REMOVE_TOAST (Some X))) σ) =
     base.filter (λ t, id t = X) (toasts s)) ∧
  (let a := mkToast "1" {["title" := VStr "A"]} in
   let b := mkToast "2" {["title" := VStr "B"]} in
   toasts (eval (reducer (mkState [a; b]) (REMOVE_TOAST (Some "1"))) init) = [a] ∧
   toasts (eval (reducer (mkState [a]) (REMOVE_TOAST (Some "1"))) init) = [a]) ∧
  (∀ s σ, toasts (eval (reducer s (REMOVE_TOAST None)) σ) = []).
Proof.
  split_and!.
  - intros s X σ. by rewrite reducer_remove.
  - cbv zeta. split; vm_compute; reflexivity.
  - done.
Qed.

(** C4 (the code departs from it).  REMOVE for an id that no toast carries
    is not a no-op: the same [filter] drops every toast, so a state holding
    only the toast "1" becomes empty when "2" is removed.  Applying the same
    REMOVE twice does give the state of applying it once. *)
Theorem C4_remove_absent_id_empties_state :
  (let a := mkToast "1" {["title" := VStr "A"]} in
   toasts (eval (reducer (mkState [a]) (REMOVE_TOAST (Some "2"))) init) = []) ∧
  (∀ s o σ σ',
     eval (reducer (eval (reducer s (REMOVE_TOAST o)) σ) (REMOVE_TOAST o)) σ' =
     eval (reducer s (REMOVE_TOAST o)) σ).
Proof.
  split.
  - by vm_compute.
  - intros s [X|] σ σ'; [|done].
    rewrite !reducer_remove. simpl. f_equal.
    induction (toasts s) as [|t l IH]; [done|].
    rewrite filter_cons. destruct (decide (id t = X)) as [Heq|Hne]; [|done].
    rewrite filter_cons, decide_True by done. by rewrite IH.
Qed.

(** C5.  After each ADD of a sequence of ADD actions folded through the
    reducer from any state, the toasts sequence has length at most
    [TOAST_LIMIT] (which is 1) and its head is the toast of that ADD. *)
Theorem C5_add_bounded_newest_first (s : State) (σ : Store)
    (ts : list ToasterToast) (t : ToasterToast) :
  let s' := eval (reduce_all s (map ADD_TOAST (ts ++ [t]))) σ in
  (length (toasts s') ≤ TOAST_LIMIT)%nat ∧ TOAST_LIMIT = 1 ∧
  head (toasts s') = Some t.
Proof.
  cbv zeta. rewrite map_app, reduce_all_app.
  change (map ADD_TOAST [t]) with [ADD_TOAST t]. cbn [reduce_all].
  rewrite eval_bind, reducer_add. simpl. unfold TOAST_LIMIT. auto.
Qed.

(** C8.  UPDATE with [{id: X, ...partial}] changes nothing outside the
    toasts: it has no effect on the store, keeps the length and the order,
    replaces each toast whose id is [X] by its shallow merge with the
    partial (a property of the partial wins, every other property of the
    toast stays), and leaves every other toast as it is; when no toast has
    id [X] the state is unchanged. *)
Theorem C8_update_merges_or_noop (s : State) (σ : Store) (X : string)
    (partial : gmap string value) :
  let p := mkPartial (Some X) partial in
  let s' := eval (reducer s (UPDATE_TOAST p)) σ in
  exec (reducer s (UPDATE_TOAST p)) σ = σ ∧
  ((∀ t, t ∈ toasts s → id t ≠ X) → s' = s) ∧
  length (toasts s') = length (toasts s) ∧
  (∀ i t, toasts s !! i = Some t →
     toasts s' !! i = Some (if decide (id t = X) then merge t p else t)) ∧
  (∀ t, id t = X →
     id (merge t p) = X ∧
     ∀ k, fields (merge t p) !! k =
          match partial !! k with Some v => Some v | None => fields t !! k end).
Proof.
  cbv zeta. rewrite reducer_update. cbn [toasts]. split_and!.
  - done.
  - intros Habs. destruct s as [l]. cbn [toasts] in *. f_equal.
    induction l as [|t l IH]; [done|]. cbn [map].
    unfold update_matches at 1. cbn [pid].
    rewrite bool_decide_eq_false_2 by (apply Habs; left).
    f_equal. apply IH. intros t' Ht'. apply Habs. by right.
  - by rewrite length_map.
  - intros i t Hi. rewrite list_lookup_fmap, Hi. cbn [fmap option_fmap option_map].
    f_equal. unfold update_matches. cbn [pid].
    destruct (decide (id t = X)) as [Heq|Hne].
    + by rewrite bool_decide_eq_true_2.
    + by rewrite bool_decide_eq_false_2.
  - intros t Ht. split; [done|]. intros k. by rewrite merge_lookup.
Qed.

Lemma C8_update_merges_or_noop_witness :
  let s := mkState [mkToast "1" {["title" := VStr "A"]}] in
  eval (reducer s (UPDATE_TOAST (mkPartial (Some "2") {["title" := VStr "B"]})))
       init = s.
Proof.
  intros s.
  refine (proj1 (proj2 (C8_update_merges_or_noop s init "2" _)) _).
  intros t Hin. apply list_elem_of_singleton in Hin as ->. discriminate.
Defined.

(** C3, counterexample to the claim as stated.  A toast that DISMISS has
    closed is open again after an UPDATE for its id whose partial carries
    [open: true]. *)
Lemma C3_update_reopens :
  let t := mkToast "1" {["open" := VBool true]} in
  let dismiss := DISMISS_TOAST (Some "1") in
  let update := UPDATE_TOAST (mkPartial (Some "1") {["open" := VBool true]}) in
  map (λ t', (id t', open_of t'))
      (toasts (eval (reduce_all (mkState [t]) [dismiss]) init))
    = [("1", Some (VBool false))] ∧
  map (λ t', (id t', open_of t'))
      (toasts (eval (reduce_all (mkState [t]) [dismiss; update]) init))
    = [("1", Some (VBool true))].
Proof. cbv zeta. split; vm_compute; reflexivity. Qed.

(** C3, as amended.  Once no toast with id [X] in the state has
    [open = true], folding any sequence of actions through the reducer
    yields a state in which no toast with id [X] has [open = true],
    provided no action of the sequence itself supplies [open: true] for
    [X] (an ADD of such a toast, or an UPDATE for [X] whose partial has
    it).  DISMISS and REMOVE never satisfy that proviso's exception. *)
Theorem C3_closed_stays_closed (s : State) (σ : Store) (X : string)
    (actions : list Action) :
  closed_in X s →
  Forall (λ a, ¬ supplies_open X a) actions →
  closed_in X (eval (reduce_all s actions) σ).
Proof.
  intros Hs Hacts. revert s σ Hs.
  induction Hacts as [|a actions Ha _ IH]; intros s σ Hs; [done|].
  cbn [reduce_all]. rewrite eval_bind. by apply IH, reducer_keeps_closed.
Qed.

Lemma C3_closed_stays_closed_witness :
  closed_in "1"
    (eval (reduce_all (mkState [mkToast "1" {["open" := VBool false]}])
             [DISMISS_TOAST None;
              UPDATE_TOAST (mkPartial (Some "1") {["title" := VStr "B"]});
              ADD_TOAST (mkToast "2" {["open" := VBool true]});
              REMOVE_TOAST (Some "1")])
          init).
Proof.
  apply C3_closed_stays_closed.
  - intros t Hin _ Hopen. apply list_elem_of_singleton in Hin as ->.
    vm_compute in Hopen. discriminate.
  - repeat apply Forall_cons_2; [..|apply Forall_nil_2];
      cbn [supplies_open]; try tauto;
      intros [H1 H2]; vm_compute in H1, H2; discriminate.
Defined.

(** ** Claims about dismissal and the removal scheduler *)

(** C6.  From a store whose timer bookkeeping is consistent, DISMISS
    without an id returns the toasts in the same order, each with
    [open = false], the same id and every other property unchanged; and
    afterwards each id that was present has an entry in [toastTimeouts]
    and exactly one pending timeout. *)
Theorem C6_dismiss_all (s : State) (σ : Store) :
  timers_ok σ →
  let s' := eval (reducer s (DISMISS_TOAST None)) σ in
  let σ' := exec (reducer s (DISMISS_TOAST None)) σ in
  length (toasts s') = length (toasts s) ∧
  (∀ i t, toasts s !! i = Some t →
     ∃ t', toasts s' !! i = Some t' ∧ id t' = id t ∧
           open_of t' = Some (VBool false) ∧
           ∀ k, k ≠ "open" → fields t' !! k = fields t !! k) ∧
  (∀ t, t ∈ toasts s →
     is_Some (toastTimeouts σ' !! id t) ∧ pending_for (id t) σ' = 1).
Proof.
  intros Hok. cbv zeta.
  rewrite reducer_dismiss_eval, reducer_dismiss_exec.
  cbn [toasts dismiss_schedule]. split_and!.
  - by rewrite length_map.
  - intros i t Hi. exists (close t). split_and!.
    + by rewrite list_lookup_fmap, Hi.
    + done.
    + unfold open_of. by rewrite close_lookup.
    + intros k Hk. by rewrite close_lookup, decide_False.
  - intros t Hin.
    pose proof (forEach_addToRemoveQueue_scheduled σ (toasts s) t Hin) as Hsch.
    split; [done|].
    pose proof (dismiss_schedule_timers_ok σ s None Hok (id t)) as Hcnt.
    cbn [dismiss_schedule] in Hcnt. rewrite Hcnt.
    by destruct Hsch as [h ->].
Qed.

Lemma C6_dismiss_all_witness :
  let s := mkState [mkToast "1" {["title" := VStr "A"]};
                    mkToast "2" {["title" := VStr "B"]}] in
  pending_for "2" (exec (reducer s (DISMISS_TOAST None)) init) = 1.
Proof.
  intros s.
  refine (proj2 (proj2 (proj2 (C6_dismiss_all s init _))
                  (mkToast "2" {["title" := VStr "B"]}) _)).
  - intros X. reflexivity.
  - right. left.
Defined.

(** C10, counterexample to the claim as stated.  The empty string is an
    id that matches no toast of this state, yet DISMISS for it inserts no
    entry for it: the guard [if (toastId)] is false, so a timeout is
    scheduled for every toast of the state instead. *)
Lemma C10_empty_id_not_scheduled :
  let s := mkState [mkToast "1" {["title" := VStr "A"]}] in
  let σ' := exec (reducer s (DISMISS_TOAST (Some ""))) init in
  eval (reducer s (DISMISS_TOAST (Some ""))) init = s ∧
  toastTimeouts σ' !! "" = None ∧
  pending σ' = [(0, "1")].
Proof. cbv zeta. split_and!; vm_compute; reflexivity. Qed.

(** C10, as amended.  DISMISS with a non-empty id that no toast of the
    state carries returns the state unchanged and still leaves an entry for
    that id in [toastTimeouts]: when none was there, the entry and one
    pending timeout are added, whatever the state holds. *)
Theorem C10_dismiss_unknown_id_schedules (s : State) (σ : Store) (X : string) :
  X ≠ "" →
  (∀ t, t ∈ toasts s → id t ≠ X) →
  let s' := eval (reducer s (DISMISS_TOAST (Some X))) σ in
  let σ' := exec (reducer s (DISMISS_TOAST (Some X))) σ in
  s' = s ∧
  is_Some (toastTimeouts σ' !! X) ∧
  (toastTimeouts σ !! X = None →
     toastTimeouts σ' = <[X := next_handle σ]> (toastTimeouts σ) ∧
     pending σ' = pending σ ++ [(next_handle σ, X)]) ∧
  (∀ t, t ∈ toasts s' → id t ≠ X).
Proof.
  intros HX Habs. cbv zeta.
  rewrite reducer_dismiss_eval, reducer_dismiss_exec.
  assert (truthy (Some X) = true) as Htr.
  { unfold truthy. by rewrite bool_decide_eq_false_2. }
  unfold dismiss_schedule. rewrite Htr.
  assert (map (λ t, if dismiss_matches (Some X) t then close t else t)
              (toasts s) = toasts s) as Hmap.
  { destruct s as [l]. cbn [toasts] in *.
    induction l as [|t l IH]; [done|]. cbn [map dismiss_matches].
    rewrite bool_decide_eq_false_2 by (apply Habs; left).
    f_equal. apply IH. intros t' Ht'. apply Habs. by right. }
  rewrite Hmap. split_and!.
  - by destruct s.
  - apply addToRemoveQueue_scheduled.
  - intros Hnone. by rewrite addToRemoveQueue_fresh.
  - done.
Qed.

Lemma C10_dismiss_unknown_id_schedules_witness :
  let s := mkState [mkToast "1" {["title" := VStr "A"]}] in
  is_Some (toastTimeouts (exec (reducer s (DISMISS_TOAST (Some "9"))) init)
           !! "9").
Proof.
  cbv zeta.
  refine (proj1 (proj2 (C10_dismiss_unknown_id_schedules _ init "9" _ _))).
  - discriminate.
  - intros t Hin. apply list_elem_of_singleton in Hin as ->. discriminate.
Defined.

(** ** Ids from [genId], dispatch of DISMISS *)

Section dismissal.
Implicit Types (σ : Store) (X : string).

Lemma pretty_N_go_nonempty (x : N) (s : string) :
  s ≠ "" → pretty_N_go x s ≠ "".
Proof.
  revert s. induction (N.lt_wf_0 x) as [x _ IH]; intros s Hs.
  destruct (decide (x = 0)%N) as [->|Hx].
  - by rewrite pretty_N_go_0.
  - rewrite pretty_N_go_step by lia. apply IH; [|done].
    apply N.div_lt; lia.
Qed.

(** [count.toString()] is never the empty string. *)
Lemma pretty_N_nonempty (n : N) : pretty n ≠ "".
Proof.
  unfold pretty, pretty_N. destruct (decide (n = 0)%N) as [->|Hn]; [done|].
  rewrite pretty_N_go_step by lia. by apply pretty_N_go_nonempty.
Qed.

Lemma genId_nonempty σ : eval genId σ ≠ "".
Proof. rewrite genId_eval. apply pretty_N_nonempty. Qed.

(** On the timer bookkeeping, dispatching DISMISS for a non-empty id is
    [addToRemoveQueue] for that id. *)
Lemma dispatch_dismiss_timers σ X :
  X ≠ "" →
  let σ' := exec (dispatch (DISMISS_TOAST (Some X))) σ in
  toastTimeouts σ' = toastTimeouts (exec (addToRemoveQueue X) σ) ∧
  pending σ' = pending (exec (addToRemoveQueue X) σ).
Proof.
  intros HX. cbv zeta. rewrite dispatch_unfold. cbn [toastTimeouts pending].
  rewrite reducer_dismiss_exec. unfold dismiss_schedule, truthy.
  by rewrite bool_decide_eq_false_2.
Qed.

Lemma pending_for_ext σ σ' X :
  pending σ' = pending σ → pending_for X σ' = pending_for X σ.
Proof. unfold pending_for. by intros ->. Qed.

End dismissal.

(** C7.  In every reachable store each id has at most one pending removal
    timeout.  [addToRemoveQueue] for an id that already has an entry does
    nothing; calling it twice leaves exactly one entry and one pending
    timeout for the id.  For a toast made by [toast], two calls of its
    [dismiss] in a row leave one entry and one pending timeout for its id,
    the second call adding none. *)
Theorem C7_scheduling_idempotent (σ : Store) :
  reachable σ →
  (∀ X, (pending_for X σ ≤ 1)%nat) ∧
  (∀ X, is_Some (toastTimeouts σ !! X) → addToRemoveQueue X σ = (tt, σ)) ∧
  (∀ X,
     let σ1 := exec (addToRemoveQueue X) σ in
     let σ2 := exec (addToRemoveQueue X) σ1 in
     σ2 = σ1 ∧ is_Some (toastTimeouts σ2 !! X) ∧ pending_for X σ2 = 1) ∧
  (∀ props,
     let X := eval (toast props) σ in
     let σ1 := exec (toast_dismiss X) (exec (toast props) σ) in
     let σ2 := exec (toast_dismiss X) σ1 in
     is_Some (toastTimeouts σ2 !! X) ∧ pending_for X σ2 = 1 ∧
     pending σ2 = pending σ1 ∧ toastTimeouts σ2 = toastTimeouts σ1).
Proof.
  intros Hreach. pose proof (reachable_timers_ok σ Hreach) as Hok.
  assert (∀ σ0 X, timers_ok σ0 →
            let σ1 := exec (addToRemoveQueue X) σ0 in
            exec (addToRemoveQueue X) σ1 = σ1 ∧
            is_Some (toastTimeouts σ1 !! X) ∧ pending_for X σ1 = 1) as Htwice.
  { intros σ0 X Hok0. cbv zeta.
    pose proof (addToRemoveQueue_scheduled σ0 X) as Hsch.
    pose proof (addToRemoveQueue_timers_ok σ0 X Hok0 X) as Hcnt.
    split_and!; [by apply addToRemoveQueue_pending_exec|done|].
    rewrite Hcnt. by destruct Hsch as [h ->]. }
  split_and!.
  - intros X. rewrite (Hok X). destruct (toastTimeouts σ !! X); lia.
  - apply addToRemoveQueue_pending_noop.
  - intros X. cbv zeta. destruct (Htwice σ X Hok) as (Heq & Hs & Hc).
    by rewrite Heq.
  - intros props. cbv zeta. rewrite toast_eval.
    set (X := eval genId σ). set (σ0 := exec (toast props) σ).
    assert (X ≠ "") as HX by apply genId_nonempty.
    assert (timers_ok σ0) as Hok0.
    { apply (do_event_timers_ok σ (EToast props)) in Hok.
      revert Hok. cbn [do_event]. by rewrite exec_bind, exec_ret. }
    unfold toast_dismiss, dismiss_action.
    destruct (dispatch_dismiss_timers σ0 X HX) as [Hm1 Hq1].
    set (σ1 := exec (dispatch (DISMISS_TOAST (Some X))) σ0) in *.
    destruct (dispatch_dismiss_timers σ1 X HX) as [Hm2 Hq2].
    destruct (Htwice σ0 X Hok0) as (_ & Hs & Hc).
    assert (is_Some (toastTimeouts σ1 !! X)) as Hs1 by (by rewrite Hm1).
    rewrite (addToRemoveQueue_pending_exec σ1 X Hs1) in Hm2, Hq2.
    rewrite Hm2, (pending_for_ext σ1 _ X Hq2), (pending_for_ext _ _ X Hq1).
    done.
Qed.

Lemma C7_scheduling_idempotent_witness :
  pending_for "1"
    (exec (toast_dismiss "1")
       (exec (toast_dismiss "1") (exec (toast {["title" := VStr "A"]}) init)))
  = 1.
Proof.
  exact (proj1 (proj2 (proj2 (proj2 (proj2
           (C7_scheduling_idempotent init reach_init)))
           {["title" := VStr "A"]}))).
Defined.

(** ** Claims about the facade and the registry *)

(** C2 (the code departs from it).  The callback that [toast] puts under
    [onOpenChange] is [(open) => { if (open) dismiss(); }]: called with
    [false] it does nothing at all, called with [true] it dispatches DISMISS
    for the toast's id.  After [toast({title: "Saved"})], whose id is "1",
    the call with [false] leaves the toast open and schedules nothing; the
    call with [true] closes it and schedules its removal. *)
Theorem C2_onOpenChange_dismisses_when_opened :
  (∀ X σ, onOpenChange X false σ = (tt, σ)) ∧
  (∀ X σ, onOpenChange X true σ = dispatch (DISMISS_TOAST (Some X)) σ) ∧
  (let σ1 := exec (toast {["title" := VStr "Saved"]}) init in
   map (λ t, (id t, fields t !! "onOpenChange", open_of t))
       (toasts (memoryState σ1))
     = [("1", Some (VFun (OnOpenChange "1")), Some (VBool true))] ∧
   exec (onOpenChange "1" false) σ1 = σ1 ∧
   pending (exec (onOpenChange "1" false) σ1) = [] ∧
   map (λ t, (id t, open_of t))
       (toasts (memoryState (exec (onOpenChange "1" true) σ1)))
     = [("1", Some (VBool false))] ∧
   pending (exec (onOpenChange "1" true) σ1) = [(0, "1")]).
Proof.
  split_and!; [done|done|].
  cbv zeta. split_and!; vm_compute; reflexivity.
Qed.

(** ** Registration and the calls a listener receives *)

Section registration.
Implicit Types (σ : Store) (s : State) (a : Action) (l : nat)
  (ls : list nat) (e : event) (es : list event).










End registration.



(** * Further properties of the toast store *)

(** ** Ids *)

Section ids.
Implicit Types (σ : Store).

Lemma genIds_eval n σ :
  eval (genIds n) σ =
  (λ j : nat, pretty ((count σ + 1 + N.of_nat j) mod MAX_SAFE_INTEGER)%N)
    <$> seq 0 n.
Proof.
  revert σ. induction n as [|n IH]; intros σ; [done|].
  cbn [genIds]. rewrite eval_bind. cbv beta. rewrite eval_bind. cbv beta.
  change (eval (ret ?x) _) with x. rewrite IH, genId_eval, genId_exec.
  cbn [count seq fmap list_fmap]. f_equal.
  - by rewrite N.add_0_r.
  - rewrite <- fmap_S_seq, <- list_fmap_compose.
    apply list_fmap_ext. intros _ j _. cbn. f_equal.
    rewrite <- N.add_assoc, N.Div0.add_mod_idemp_l. f_equal. lia.
Qed.

Lemma mod_window_inj (a j k : N) :
  (j < MAX_SAFE_INTEGER)%N → (k < MAX_SAFE_INTEGER)%N →
  ((a + j) mod MAX_SAFE_INTEGER = (a + k) mod MAX_SAFE_INTEGER)%N → j = k.
Proof.
  intros Hj Hk Heq.
  pose proof (N.div_mod (a + j) MAX_SAFE_INTEGER) as Dj.
  pose proof (N.div_mod (a + k) MAX_SAFE_INTEGER) as Dk.
  assert (MAX_SAFE_INTEGER ≠ 0)%N as HM by done.
  specialize (Dj HM). specialize (Dk HM). rewrite Heq in Dj.
  set (qj := ((a + j) `div` MAX_SAFE_INTEGER)%N) in *.
  set (qk := ((a + k) `div` MAX_SAFE_INTEGER)%N) in *.
  set (r := ((a + k) `mod` MAX_SAFE_INTEGER)%N) in *.
  assert (qj = qk) as Hq; [|subst qj; rewrite Hq in Dj; lia].
  destruct (N.lt_trichotomy qj qk) as [Hlt|[Heq'|Hgt]]; [|done|].
  - assert (MAX_SAFE_INTEGER * (qj + 1) ≤ MAX_SAFE_INTEGER * qk)%N
      by (apply N.mul_le_mono_l; lia). lia.
  - assert (MAX_SAFE_INTEGER * (qk + 1) ≤ MAX_SAFE_INTEGER * qj)%N
      by (apply N.mul_le_mono_l; lia). lia.
Qed.
End ids.

(** X1.  [genId] never repeats an id within [Number.MAX_SAFE_INTEGER]
    successive calls, whatever the counter was before, and no id is the
    empty string. *)
Theorem X1_genId_fresh_within_window (σ : Store) (n : nat) :
  (N.of_nat n ≤ MAX_SAFE_INTEGER)%N →
  NoDup (eval (genIds n) σ) ∧ Forall (λ i, i ≠ "") (eval (genIds n) σ).
Proof.
  intros Hn. rewrite genIds_eval. split.
  - apply NoDup_fmap_2_strong; [|apply NoDup_seq].
    intros j k Hj Hk Heq. apply elem_of_seq in Hj, Hk.
    apply (inj pretty) in Heq. apply mod_window_inj in Heq; lia.
  - apply Forall_fmap, Forall_forall. intros j _. apply pretty_N_nonempty.
Qed.

Lemma X1_genId_fresh_within_window_witness :
  NoDup (eval (genIds 3) init) ∧ Forall (λ i, i ≠ "") (eval (genIds 3) init).
Proof. apply X1_genId_fresh_within_window. vm_compute. discriminate. Defined.

(** X2.  The counter stays below [MAX_SAFE_INTEGER] in every reachable
    store and wraps: a call of [genId] made when the counter is
    [MAX_SAFE_INTEGER - 1] sets it to 0 and returns "0"; and from any
    counter, the call made [MAX_SAFE_INTEGER] calls after another returns
    the same id again, so the window of X1 cannot be widened. *)
Theorem X2_genId_wraps :
  (∀ σ, reachable σ → (count σ < MAX_SAFE_INTEGER)%N) ∧
  (∀ σ, count σ = (MAX_SAFE_INTEGER - 1)%N →
        eval genId σ = "0" ∧ count (exec genId σ) = 0%N) ∧
  (∀ σ n, N.of_nat n = MAX_SAFE_INTEGER →
        eval genId (exec (genIds n) σ) = eval genId σ).
Proof.
  split_and!.
  - intros σ Hreach. induction Hreach as [|σ e _ IH _]; [done|].
    assert (∀ σ0 a, count (exec (dispatch a) σ0) = count σ0) as Hd.
    { intros σ0 a. rewrite dispatch_unfold. cbn [count].
      apply reducer_frame. }
    destruct e as [a|props|X [|]|i|l|l];
      cbn [do_event]; unfold onOpenChange, toast_dismiss, dismiss_action.
    + by rewrite Hd.
    + rewrite exec_bind, exec_ret, toast_exec, Hd, genId_exec. cbn [count].
      by apply N.mod_lt.
    + by rewrite Hd.
    + done.
    + rewrite fire_exec. destruct (pending σ !! i) as [[h X]|]; [|done].
      by rewrite Hd.
    + done.
    + by destruct (unsubscribe_frame σ l) as (-> & _).
  - intros σ Hc. rewrite genId_eval, genId_exec. cbn [count].
    rewrite Hc. split; reflexivity.
  - intros σ n Hn. rewrite !genId_eval. f_equal.
    assert (∀ m σ0, count (exec (genIds m) σ0) =
              match m with
              | 0 => count σ0
              | S _ => ((count σ0 + N.of_nat m) mod MAX_SAFE_INTEGER)%N
              end) as Hcnt.
    { induction m as [|m IH]; intros σ0; [reflexivity|].
      cbn [genIds]. rewrite !exec_bind, exec_ret, IH, genId_exec.
      cbn [count]. destruct m as [|m].
      - f_equal.
      - rewrite N.Div0.add_mod_idemp_l. f_equal. lia. }
    rewrite Hcnt. destruct n as [|n]; [discriminate Hn|].
    rewrite Hn, N.Div0.add_mod_idemp_l.
    replace (count σ + MAX_SAFE_INTEGER + 1)%N
      with (count σ + 1 + 1 * MAX_SAFE_INTEGER)%N by lia.
    apply N.Div0.mod_add.
Qed.

Lemma X2_genId_wraps_witness :
  eval genId (exec (set_count (MAX_SAFE_INTEGER - 1)) init) = "0".
Proof.
  exact (proj1 (proj1 (proj2 X2_genId_wraps)
                  (exec (set_count (MAX_SAFE_INTEGER - 1)) init) eq_refl)).
Defined.

(** ** The facade and the visible limit *)

Section facade.
Implicit Types (σ : Store) (s : State) (a : Action).

Lemma dispatch_memoryState σ a :
  memoryState (exec (dispatch a) σ) = eval (reducer (memoryState σ) a) σ.
Proof. by rewrite dispatch_unfold. Qed.

Lemma reducer_length s a σ :
  (length (toasts s) ≤ TOAST_LIMIT)%nat →
  (length (toasts (eval (reducer s a) σ)) ≤ TOAST_LIMIT)%nat.
Proof.
  intros Hs. destruct a as [t|p|o|[X|]].
  - by rewrite reducer_add.
  - rewrite reducer_update. cbn [toasts]. by rewrite length_map.
  - rewrite reducer_dismiss_eval. cbn [toasts]. by rewrite length_map.
  - rewrite reducer_remove. cbn [toasts].
    etrans; [apply length_filter|done].
  - cbn. unfold TOAST_LIMIT. lia.
Qed.

Lemma do_event_length σ e :
  (length (toasts (memoryState σ)) ≤ TOAST_LIMIT)%nat →
  (length (toasts (memoryState (exec (do_event e) σ))) ≤ TOAST_LIMIT)%nat.
Proof.
  intros Hs. destruct e as [a|props|X [|]|i|l|l];
    cbn [do_event]; unfold onOpenChange, toast_dismiss, dismiss_action.
  - rewrite dispatch_memoryState. by apply reducer_length.
  - rewrite exec_bind, exec_ret, toast_exec, dispatch_memoryState.
    by apply reducer_length.
  - rewrite dispatch_memoryState. by apply reducer_length.
  - done.
  - rewrite fire_exec. destruct (pending σ !! i) as [[h X]|]; [|done].
    rewrite dispatch_memoryState. by apply reducer_length.
  - done.
  - by destruct (unsubscribe_frame σ l) as (_ & _ & _ & -> & _).
Qed.
End facade.

(** X3.  [toast(props)] from any store: the returned id is the decimal of
    the advanced counter; afterwards the state holds exactly one toast, the
    new one, whatever it held before; that toast has the returned id,
    [open] and [onOpenChange] as [toast] sets them even when [props]
    supplies its own, and every other property of [props]; no timeout is
    scheduled; and each registered listener is called once with the new
    state. *)
Theorem X3_toast_replaces_visible_toast (σ : Store)
    (props : gmap string value) :
  let X := eval (toast props) σ in
  let σ' := exec (toast props) σ in
  X = pretty ((count σ + 1) mod MAX_SAFE_INTEGER)%N ∧
  (∃ t, toasts (memoryState σ') = [t] ∧ id t = X ∧
        open_of t = Some (VBool true) ∧
        fields t !! "onOpenChange" = Some (VFun (OnOpenChange X)) ∧
        ∀ k, k ≠ "open" → k ≠ "onOpenChange" → fields t !! k = props !! k) ∧
  toastTimeouts σ' = toastTimeouts σ ∧ pending σ' = pending σ ∧
  listeners σ' = listeners σ ∧
  calls σ' = calls σ ++ map (λ l, (l, memoryState σ')) (listeners σ).
Proof.
  cbv zeta. rewrite toast_eval, toast_exec, genId_eval.
  set (X := pretty ((count σ + 1) `mod` MAX_SAFE_INTEGER)%N).
  rewrite dispatch_unfold. cbn [memoryState toastTimeouts pending listeners calls].
  rewrite reducer_pure by done. rewrite genId_exec.
  cbn [memoryState toastTimeouts pending listeners calls].
  unfold add_action. rewrite reducer_add. split_and!; try done.
  eexists. split_and!; [reflexivity|done| | |].
  - unfold open_of. cbn [fields].
    by rewrite lookup_insert_ne, lookup_insert_eq.
  - cbn [fields]. by rewrite lookup_insert_eq.
  - intros k Hk1 Hk2. cbn [fields]. by rewrite !lookup_insert_ne.
Qed.

(** X4.  In every reachable store the current state holds at most
    [TOAST_LIMIT] toasts, that is at most one. *)
Theorem X4_at_most_one_visible_toast (σ : Store) :
  reachable σ → (length (toasts (memoryState σ)) ≤ TOAST_LIMIT)%nat.
Proof.
  induction 1 as [|σ e _ IH _]; [cbn; unfold TOAST_LIMIT; lia|].
  by apply do_event_length.
Qed.

Lemma X4_at_most_one_visible_toast_witness :
  (length (toasts (memoryState
     (exec (do_event (EToast {["title" := VStr "B"]}))
        (exec (do_event (EToast {["title" := VStr "A"]})) init))))
   ≤ TOAST_LIMIT)%nat.
Proof.
  apply X4_at_most_one_visible_toast.
  apply reach_event; [apply reach_event; [apply reach_init|]|]; discriminate.
Defined.

(** ** The timer map and the host queue *)

Section linked.
Implicit Types (σ : Store) (s : State) (a : Action) (X Y : string).

Lemma timers_linked_ext σ σ' :
  toastTimeouts σ' = toastTimeouts σ → pending σ' = pending σ →
  next_handle σ' = next_handle σ → timers_linked σ → timers_linked σ'.
Proof. unfold timers_linked. by intros -> -> ->. Qed.

Lemma addToRemoveQueue_linked σ X :
  timers_linked σ → timers_linked (exec (addToRemoveQueue X) σ).
Proof.
  intros (Hiff & Hnd & Hlt).
  destruct (toastTimeouts σ !! X) as [h|] eqn:HX.
  { by rewrite addToRemoveQueue_pending_exec by eauto. }
  rewrite addToRemoveQueue_fresh by done.
  unfold timers_linked. cbn [toastTimeouts pending next_handle].
  split_and!.
  - intros Y h. rewrite elem_of_app, list_elem_of_singleton.
    destruct (decide (X = Y)) as [<-|Hne].
    + rewrite lookup_insert_eq. split.
      * intros [= <-]. by right.
      * intros [Hin| [= -> ]]; [|done].
        apply Hiff in Hin. congruence.
    + rewrite lookup_insert_ne by done. rewrite Hiff. split; [by left|].
      intros [Hin|[= _ HXY]]; [done|congruence].
  - rewrite fmap_app. apply NoDup_app. split_and!; [done| |apply NoDup_singleton].
    intros h Hh Hh'. apply list_elem_of_singleton in Hh'.
    apply list_elem_of_fmap in Hh as ([h' Y] & Heq & Hin).
    apply Hlt in Hin. cbn in *. lia.
  - intros h Y Hin. apply elem_of_app in Hin as [Hin|Hin].
    + apply Hlt in Hin. lia.
    + apply list_elem_of_singleton in Hin as [= -> _]. lia.
Qed.

Lemma forEach_addToRemoveQueue_linked σ (ts : list ToasterToast) :
  timers_linked σ →
  timers_linked (exec (forEach (λ toast, addToRemoveQueue (id toast)) ts) σ).
Proof.
  revert σ. induction ts as [|t ts IH]; intros σ Hl; [done|].
  cbn [forEach]. rewrite exec_bind. by apply IH, addToRemoveQueue_linked.
Qed.

Lemma reducer_linked σ s a :
  timers_linked σ → timers_linked (exec (reducer s a) σ).
Proof.
  intros Hl. destruct a as [t|p|o|[X|]]; try done.
  rewrite reducer_dismiss_exec. unfold dismiss_schedule.
  destruct o as [X|]; [destruct (truthy _)|];
    auto using addToRemoveQueue_linked, forEach_addToRemoveQueue_linked.
Qed.

Lemma dispatch_linked σ a :
  timers_linked σ → timers_linked (exec (dispatch a) σ).
Proof.
  intros Hl. rewrite dispatch_unfold.
  eapply timers_linked_ext;
    [| | |by apply (reducer_linked σ (memoryState σ) a)]; done.
Qed.

Lemma fire_linked σ i :
  timers_linked σ → timers_linked (exec (fire i) σ).
Proof.
  intros (Hiff & Hnd & Hlt). rewrite fire_exec.
  destruct (pending σ !! i) as [[h X]|] eqn:Hi; [|done].
  apply dispatch_linked. unfold timers_linked.
  cbn [toastTimeouts pending next_handle].
  pose proof (take_drop_middle _ _ _ Hi) as Hsplit.
  rewrite delete_take_drop.
  set (l1 := take i (pending σ)) in *. set (l2 := drop (S i) (pending σ)) in *.
  rewrite <- Hsplit in Hnd.
  rewrite fmap_app, fmap_cons in Hnd. cbn [fst] in Hnd.
  apply NoDup_app in Hnd as (Hnd1 & Hdisj & Hnd2).
  apply NoDup_cons in Hnd2 as [Hh2 Hnd2].
  assert (h ∉ l1.*1) as Hh1.
  { intros Hin. apply (Hdisj h Hin). left. }
  assert (∀ h' Y, (h', Y) ∈ l1 ++ l2 → (h', Y) ∈ pending σ) as Hsub.
  { intros h' Y Hin. rewrite <- Hsplit.
    apply elem_of_app in Hin as [Hin|Hin]; apply elem_of_app;
      [by left|right; by right]. }
  assert (toastTimeouts σ !! X = Some h) as HX.
  { apply Hiff. rewrite <- Hsplit. apply elem_of_app. right. left. }
  split_and!.
  - intros Y h'. rewrite lookup_delete_Some. split.
    + intros [Hne Hin]. apply Hiff in Hin. rewrite <- Hsplit in Hin.
      apply elem_of_app in Hin as [Hin|Hin]; apply elem_of_app; [by left|].
      apply elem_of_cons in Hin as [[= _ HYX]|Hin]; [congruence|by right].
    + intros Hin. split; [|by apply Hiff, Hsub].
      intros <-. pose proof (Hsub _ _ Hin) as Hin'. apply Hiff in Hin'.
      assert (h' = h) as -> by congruence.
      apply elem_of_app in Hin as [Hin|Hin].
      * apply Hh1. apply list_elem_of_fmap. by exists (h, X).
      * apply Hh2. apply list_elem_of_fmap. by exists (h, X).
  - rewrite fmap_app. apply NoDup_app. split_and!; [done| |done].
    intros x Hx Hx'. apply (Hdisj x Hx). by right.
  - intros h' Y Hin. by apply (Hlt h' Y), Hsub.
Qed.

Lemma do_event_linked σ e :
  timers_linked σ → timers_linked (exec (do_event e) σ).
Proof.
  intros Hl. destruct e as [a|props|X [|]|i|l|l];
    cbn [do_event]; unfold onOpenChange, toast_dismiss, dismiss_action.
  - by apply dispatch_linked.
  - rewrite exec_bind, exec_ret, toast_exec. by apply dispatch_linked.
  - by apply dispatch_linked.
  - done.
  - by apply fire_linked.
  - done.
  - eapply timers_linked_ext; [..|exact Hl]; unfold exec, unsubscribe, bind, gets;
      by destruct (indexOf (listeners σ) l).
Qed.
End linked.

(** X5.  In every reachable store [toastTimeouts] and the host's pending
    timeouts agree: an id maps to a handle exactly when a timeout with
    that handle is pending for that id; no two pending timeouts share a
    handle or an id; and every pending handle was handed out earlier. *)
Theorem X5_timer_map_mirrors_pending_timeouts (σ : Store) :
  reachable σ →
  (∀ X h, toastTimeouts σ !! X = Some h ↔ (h, X) ∈ pending σ) ∧
  NoDup (pending σ).*1 ∧ NoDup (pending σ).*2 ∧
  (∀ h X, (h, X) ∈ pending σ → h < next_handle σ) ∧
  length (pending σ) = size (toastTimeouts σ).
Proof.
  intros Hreach.
  assert (timers_linked σ) as (Hiff & Hnd & Hlt).
  { induction Hreach as [|σ e _ IH _]; [|by apply do_event_linked].
    split_and!; cbn.
    - intros X h. rewrite lookup_empty. split; [done|].
      intros Hin. by apply elem_of_nil in Hin.
    - apply NoDup_nil_2.
    - intros h X Hin. by apply elem_of_nil in Hin. }
  assert (NoDup (pending σ)) as Hndp by (by eapply NoDup_fmap_1).
  assert (NoDup (pending σ).*2) as Hnd2.
  { apply NoDup_fmap_2_strong; [|done].
    intros [h X] [h' X'] Hin Hin' Heq. cbn in Heq. subst X'.
    apply Hiff in Hin, Hin'. congruence. }
  split_and!; try done.
  rewrite <- (length_fmap snd (pending σ)), <- size_dom.
  rewrite <- (size_list_to_set (C := gset string)) by done. f_equal.
  apply set_eq. intros X. rewrite elem_of_list_to_set, elem_of_dom.
  rewrite list_elem_of_fmap. split.
  - intros [[h X'] [-> Hin]]. apply Hiff in Hin. eauto.
  - intros [h Hh]. exists (h, X). split; [done|]. by apply Hiff.
Qed.

Lemma X5_timer_map_mirrors_pending_timeouts_witness :
  length (pending (exec (do_event (EDispatch (DISMISS_TOAST (Some "7")))) init))
  = size (toastTimeouts
            (exec (do_event (EDispatch (DISMISS_TOAST (Some "7")))) init)).
Proof.
  refine (proj2 (proj2 (proj2 (proj2
            (X5_timer_map_mirrors_pending_timeouts _ _))))).
  apply reach_event; [apply reach_init|discriminate].
Defined.

(** X6.  When the timeout at position [i] of the host's queue, scheduled
    for id [X], fires in a reachable store: the id loses its entry in
    [toastTimeouts] and has no pending timeout left, so a later dismissal
    schedules it afresh; the timeouts and entries of every other id are
    as before; and the state that follows holds, in order, the toasts of
    the earlier state that carry the id [X].  A position with no pending
    timeout leaves the store as it is. *)
Theorem X6_timer_expiry (σ : Store) (i : nat) :
  reachable σ →
  let σ' := exec (fire i) σ in
  (pending σ !! i = None → σ' = σ) ∧
  (∀ h X, pending σ !! i = Some (h, X) →
     toastTimeouts σ' !! X = None ∧ pending_for X σ' = 0 ∧
     length (pending σ') + 1 = length (pending σ) ∧
     (∀ Y, Y ≠ X → toastTimeouts σ' !! Y = toastTimeouts σ !! Y ∧
                   pending_for Y σ' = pending_for Y σ) ∧
     pending_for X (exec (addToRemoveQueue X) σ') = 1 ∧
     toasts (memoryState σ') =
       base.filter (λ t, id t = X) (toasts (memoryState σ))).
Proof.
  intros Hreach. pose proof (reachable_timers_ok σ Hreach) as Hok.
  pose proof (fire_timers_ok σ i Hok) as Hok'.
  cbv zeta. split.
  - intros Hi. by rewrite fire_exec, Hi.
  - intros h X Hi. revert Hok'. rewrite fire_exec, Hi. intros Hok'.
    set (σm := {| count := count σ;
                  toastTimeouts := delete X (toastTimeouts σ);
                  pending := delete i (pending σ);
                  next_handle := next_handle σ;
                  memoryState := memoryState σ; listeners := listeners σ;
                  calls := calls σ |}) in *.
    set (σ' := exec (dispatch (REMOVE_TOAST (Some X))) σm) in *.
    assert (toastTimeouts σ' = delete X (toastTimeouts σ) ∧
            pending σ' = delete i (pending σ)) as [Hm Hq].
    { unfold σ'. rewrite dispatch_unfold.
      cbn [toastTimeouts pending]. by rewrite reducer_pure. }
    assert (toastTimeouts σ' !! X = None) as HX
      by (by rewrite Hm, lookup_delete_eq).
    split_and!.
    + done.
    + by rewrite (Hok' X), HX.
    + rewrite Hq, length_delete by eauto.
      apply lookup_lt_Some in Hi. lia.
    + intros Y HY.
      assert (toastTimeouts σ' !! Y = toastTimeouts σ !! Y) as HmY
        by (by rewrite Hm, lookup_delete_ne).
      split; [done|]. by rewrite (Hok' Y), (Hok Y), HmY.
    + rewrite (addToRemoveQueue_timers_ok σ' X Hok' X).
      by destruct (addToRemoveQueue_scheduled σ' X) as [h' ->].
    + unfold σ'. by rewrite dispatch_memoryState, reducer_remove.
Qed.

Lemma X6_timer_expiry_witness :
  toastTimeouts
    (exec (fire 0)
       (exec (do_event (EDispatch (DISMISS_TOAST (Some "7")))) init))
  !! "7" = None.
Proof.
  refine (proj1 (proj2 (X6_timer_expiry _ 0 _) 0 "7" _)).
  - apply reach_event; [apply reach_init|discriminate].
  - reflexivity.
Defined.

Section cancel_free.
Implicit Types (σ : Store) (s : State) (a : Action) (X : string).

Lemma addToRemoveQueue_grows σ X :
  toastTimeouts σ ⊆ toastTimeouts (exec (addToRemoveQueue X) σ) ∧
  pending σ `prefix_of` pending (exec (addToRemoveQueue X) σ).
Proof.
  destruct (toastTimeouts σ !! X) as [h|] eqn:HX.
  - by rewrite addToRemoveQueue_pending_exec by eauto.
  - rewrite addToRemoveQueue_fresh by done. cbn [toastTimeouts pending].
    split; [by apply insert_subseteq|by apply prefix_app_r].
Qed.

Lemma forEach_addToRemoveQueue_grows σ (ts : list ToasterToast) :
  toastTimeouts σ ⊆
    toastTimeouts (exec (forEach (λ toast, addToRemoveQueue (id toast)) ts) σ) ∧
  pending σ `prefix_of`
    pending (exec (forEach (λ toast, addToRemoveQueue (id toast)) ts) σ).
Proof.
  revert σ. induction ts as [|t ts IH]; intros σ; [done|].
  cbn [forEach]. rewrite exec_bind.
  destruct (addToRemoveQueue_grows σ (id t)) as [Hm Hq].
  destruct (IH (exec (addToRemoveQueue (id t)) σ)) as [Hm' Hq'].
  split; by etrans.
Qed.

Lemma dispatch_grows σ a :
  toastTimeouts σ ⊆ toastTimeouts (exec (dispatch a) σ) ∧
  pending σ `prefix_of` pending (exec (dispatch a) σ).
Proof.
  rewrite dispatch_unfold. cbn [toastTimeouts pending].
  destruct a as [t|p|o|[X|]]; try done.
  rewrite reducer_dismiss_exec. unfold dismiss_schedule.
  destruct o as [X|]; [destruct (truthy _)|];
    auto using addToRemoveQueue_grows, forEach_addToRemoveQueue_grows.
Qed.
End cancel_free.

(** X7.  Nothing but the expiry of a timeout takes a timeout away: across
    any event other than an expiry (a dispatch of any action, REMOVE
    included, a call of [toast] or of an [onOpenChange] callback, a
    component mounting or cleaning up) every entry of [toastTimeouts] keeps
    its handle and the host's queue only grows at its end. *)
Theorem X7_no_event_cancels_a_timeout (σ : Store) (e : event) :
  (∀ i, e ≠ EFire i) →
  toastTimeouts σ ⊆ toastTimeouts (exec (do_event e) σ) ∧
  pending σ `prefix_of` pending (exec (do_event e) σ).
Proof.
  intros He. destruct e as [a|props|X [|]|i|l|l];
    cbn [do_event]; unfold onOpenChange, toast_dismiss, dismiss_action.
  - apply dispatch_grows.
  - rewrite exec_bind, exec_ret, toast_exec.
    apply (dispatch_grows (exec genId σ)).
  - apply dispatch_grows.
  - done.
  - by destruct (He i).
  - done.
  - by destruct (unsubscribe_frame σ l) as (_ & -> & -> & _).
Qed.

Lemma X7_no_event_cancels_a_timeout_witness :
  let σ := exec (do_event (EDispatch (DISMISS_TOAST (Some "7")))) init in
  pending σ `prefix_of`
    pending (exec (do_event (EDispatch (REMOVE_TOAST (Some "7")))) σ).
Proof.
  intros σ.
  refine (proj2 (X7_no_event_cancels_a_timeout σ
                   (EDispatch (REMOVE_TOAST (Some "7"))) _)).
  discriminate.
Defined.

(** ** How reducer actions compose *)

Section composition.
Implicit Types (σ : Store) (s : State) (t : ToasterToast) (X Y : string).

Lemma forEach_addToRemoveQueue_noop σ (ts : list ToasterToast) :
  (∀ t, t ∈ ts → is_Some (toastTimeouts σ !! id t)) →
  exec (forEach (λ toast, addToRemoveQueue (id toast)) ts) σ = σ.
Proof.
  induction ts as [|t ts IH]; intros Hall; [done|].
  cbn [forEach]. rewrite exec_bind.
  rewrite addToRemoveQueue_pending_exec by (apply Hall; left).
  apply IH. intros t' Ht'. apply Hall. by right.
Qed.

Lemma close_close t : close (close t) = close t.
Proof. unfold close. cbn [id fields]. by rewrite insert_insert_eq. Qed.

Lemma dismiss_map_idemp (o : option string) (l : list ToasterToast) :
  map (λ t, if dismiss_matches o t then close t else t)
      (map (λ t, if dismiss_matches o t then close t else t) l)
  = map (λ t, if dismiss_matches o t then close t else t) l.
Proof.
  rewrite map_map. apply map_ext. intros t.
  destruct (dismiss_matches o t) eqn:Hm; [|by rewrite Hm].
  assert (dismiss_matches o (close t) = true) as -> by (by destruct o).
  apply close_close.
Qed.

Lemma merge_merge t X (p q : gmap string value) :
  merge (merge t (mkPartial (Some X) p)) (mkPartial (Some X) q)
  = merge t (mkPartial (Some X) (q ∪ p)).
Proof.
  unfold merge. cbn [id fields pid pfields default]. f_equal.
  by rewrite (assoc_L (∪)).
Qed.
End composition.

(** X8.  DISMISS is idempotent, with or without an id and for the empty
    id too: reducing the same DISMISS a second time returns the same state
    and leaves the store, timeouts included, as the first left it. *)
Theorem X8_dismiss_idempotent (s : State) (σ : Store) (toastId : option string) :
  let s1 := eval (reducer s (DISMISS_TOAST toastId)) σ in
  let σ1 := exec (reducer s (DISMISS_TOAST toastId)) σ in
  eval (reducer s1 (DISMISS_TOAST toastId)) σ1 = s1 ∧
  exec (reducer s1 (DISMISS_TOAST toastId)) σ1 = σ1.
Proof.
  cbv zeta. rewrite !reducer_dismiss_eval, !reducer_dismiss_exec.
  cbn [toasts]. split.
  - by rewrite dismiss_map_idemp.
  - set (s1 := mkState _).
    assert (∀ σ0, exec (forEach (λ toast, addToRemoveQueue (id toast))
                     (toasts s1))
                    (exec (forEach (λ toast, addToRemoveQueue (id toast))
                             (toasts s)) σ0)
                  = exec (forEach (λ toast, addToRemoveQueue (id toast))
                            (toasts s)) σ0) as Hall.
    { intros σ0. apply forEach_addToRemoveQueue_noop. intros t' Hin.
      unfold s1 in Hin. cbn [toasts] in Hin.
      apply list_elem_of_fmap in Hin as (t & -> & Hin).
      assert (id (if dismiss_matches toastId t then close t else t) = id t)
        as -> by (by destruct (dismiss_matches toastId t)).
      by apply forEach_addToRemoveQueue_scheduled. }
    unfold dismiss_schedule. destruct toastId as [X|]; [|apply Hall].
    destruct (truthy (Some X)); [|apply Hall].
    apply addToRemoveQueue_pending_exec, addToRemoveQueue_scheduled.
Qed.

(** X9.  Two UPDATEs for the same id amount to one UPDATE with the two
    partials merged, the later one winning; UPDATEs for different ids
    commute; and an UPDATE whose partial has no id changes nothing. *)
Theorem X9_updates_compose (s : State) (σ σ' : Store) (X Y : string)
    (p q : gmap string value) :
  let upd Z f := UPDATE_TOAST (mkPartial (Some Z) f) in
  eval (reducer (eval (reducer s (upd X p)) σ) (upd X q)) σ'
    = eval (reducer s (upd X (q ∪ p))) σ ∧
  (X ≠ Y →
   eval (reducer (eval (reducer s (upd X p)) σ) (upd Y q)) σ'
     = eval (reducer (eval (reducer s (upd Y q)) σ) (upd X p)) σ') ∧
  eval (reducer s (UPDATE_TOAST (mkPartial None p))) σ = s.
Proof.
  cbv zeta. rewrite !reducer_update. cbn [toasts]. split_and!.
  - f_equal. rewrite map_map. apply map_ext. intros t.
    unfold update_matches. cbn [pid].
    destruct (decide (id t = X)) as [Ht|Ht].
    + rewrite (bool_decide_eq_true_2 (id t = X)) by done.
      rewrite (bool_decide_eq_true_2 (id (merge t _) = X)) by done.
      apply merge_merge.
    + rewrite (bool_decide_eq_false_2 (id t = X)) by done.
      by rewrite (bool_decide_eq_false_2 (id t = X)) by done.
  - intros Hne. f_equal. rewrite !map_map. apply map_ext. intros t.
    unfold update_matches. cbn [pid].
    destruct (decide (id t = X)) as [HtX|HtX];
      destruct (decide (id t = Y)) as [HtY|HtY]; [congruence| | |].
    + rewrite (bool_decide_eq_true_2 (id t = X)) by done.
      rewrite (bool_decide_eq_false_2 (id t = Y)) by done.
      cbv beta iota.
      rewrite ?(bool_decide_eq_true_2 (id t = X)) by done.
      rewrite (bool_decide_eq_false_2 (id (merge t _) = Y)); [done|].
      unfold merge. simpl. congruence.
    + rewrite (bool_decide_eq_false_2 (id t = X)) by done.
      rewrite (bool_decide_eq_true_2 (id t = Y)) by done.
      cbv beta iota.
      rewrite ?(bool_decide_eq_true_2 (id t = Y)) by done.
      rewrite (bool_decide_eq_false_2 (id (merge t _) = X)); [done|].
      unfold merge. simpl. congruence.
    + rewrite (bool_decide_eq_false_2 (id t = X)) by done.
      rewrite (bool_decide_eq_false_2 (id t = Y)) by done.
      cbv beta iota.
      rewrite ?(bool_decide_eq_false_2 (id t = X)) by done.
      by rewrite ?(bool_decide_eq_false_2 (id t = Y)) by done.
  - destruct s as [l]. cbn [toasts]. f_equal.
    unfold update_matches. cbn [pid]. apply map_id.
Qed.

Lemma X9_updates_compose_witness :
  let s := mkState [mkToast "1" {["title" := VStr "A"]}] in
  let upd Z f := UPDATE_TOAST (mkPartial (Some Z) f) in
  eval (reducer (eval (reducer s (upd "1" {["title" := VStr "B"]})) init)
          (upd "2" {["title" := VStr "C"]})) init
  = eval (reducer (eval (reducer s (upd "2" {["title" := VStr "C"]})) init)
          (upd "1" {["title" := VStr "B"]})) init.
Proof.
  intros s upd.
  refine (proj1 (proj2 (X9_updates_compose s init init "1" "2" _ _)) _).
  discriminate.
Defined.

(** X10.  What the reducer never does to the list of toasts: UPDATE and
    DISMISS keep the ids in their order (no toast is added, dropped, moved
    or given another id); REMOVE returns a sublist of the toasts it was
    given, each unaltered; only ADD brings in a toast, and then the result
    is that toast alone. *)
Theorem X10_reducer_preserves_identities (s : State) (a : Action) (σ : Store) :
  let s' := eval (reducer s a) σ in
  match a with
  | ADD_TOAST t => toasts s' = [t]
  | UPDATE_TOAST _ | DISMISS_TOAST _ => map id (toasts s') = map id (toasts s)
  | REMOVE_TOAST _ => toasts s' `sublist_of` toasts s
  end.
Proof.
  cbv zeta. destruct a as [t|p|o|[X|]].
  - by rewrite reducer_add.
  - rewrite reducer_update. cbn [toasts]. rewrite map_map.
    apply map_ext. intros t. unfold update_matches.
    destruct (pid p) as [X|] eqn:Hp; [|done].
    destruct (bool_decide (id t = X)) eqn:Ht; [|done].
    apply bool_decide_eq_true_1 in Ht. unfold merge. cbn [id].
    by rewrite Hp.
  - rewrite reducer_dismiss_eval. cbn [toasts]. rewrite map_map.
    apply map_ext. intros t. by destruct (dismiss_matches o t).
  - rewrite reducer_remove. cbn [toasts]. apply sublist_filter.
  - apply sublist_nil_l.
Qed.

(** ** The registry, once more *)

(** X11.  The cleanup of [useToast] takes out one registration of its
    setter, the earliest: every other listener keeps its place relative to
    the others, the number of registrations of the setter drops by one (so
    a setter registered twice is still registered), and a setter that is
    not registered leaves the store untouched.  Mounting a component whose
    setter is not registered and cleaning it up again restores the store. *)
Theorem X11_cleanup_removes_earliest_registration (σ : Store) (l : nat) :
  let ls := listeners σ in
  let σ' := exec (unsubscribe l) σ in
  (l ∈ ls →
   ∃ i, ls !! i = Some l ∧ (l ∉ take i ls) ∧ listeners σ' = delete i ls) ∧
  base.filter (λ x, x ≠ l) (listeners σ') = base.filter (λ x, x ≠ l) ls ∧
  length (base.filter (λ x, x = l) (listeners σ'))
    = length (base.filter (λ x, x = l) ls) - 1 ∧
  (l ∉ ls → σ' = σ) ∧
  (l ∉ ls → exec (unsubscribe l) (exec (subscribe l) σ) = σ).
Proof.
  cbv zeta. rewrite unsubscribe_listeners. split_and!.
  - intros Hin. destruct (indexOf (listeners σ) l) as [i|] eqn:Hi.
    + exists i. apply indexOf_Some in Hi as [Hi Hbefore]. done.
    + by apply indexOf_None in Hi.
  - destruct (indexOf (listeners σ) l) as [i|] eqn:Hi; [|done].
    apply indexOf_Some in Hi as [Hi _].
    rewrite <- (take_drop_middle _ _ _ Hi) at 2.
    rewrite delete_take_drop, !filter_app, filter_cons.
    by rewrite decide_False by (intros H; by apply H).
  - destruct (indexOf (listeners σ) l) as [i|] eqn:Hi.
    + apply indexOf_Some in Hi as [Hi _].
      rewrite <- (take_drop_middle _ _ _ Hi) at 2.
      rewrite delete_take_drop, !filter_app, filter_cons.
      rewrite decide_True by done. rewrite !length_app. cbn [length]. lia.
    + apply indexOf_None in Hi.
      assert (base.filter (λ x, x = l) (listeners σ) = []) as ->; [|done].
      induction (listeners σ) as [|x ls IH]; [done|].
      apply not_elem_of_cons in Hi as [Hne Hi].
      rewrite filter_cons, decide_False by done. by apply IH.
  - intros Hl. unfold exec. by rewrite unsubscribe_absent.
  - intros Hl. unfold exec at 1. unfold unsubscribe, bind, gets.
    rewrite subscribe_exec. cbn [listeners fst snd].
    destruct (indexOf (listeners σ ++ [l]) l) as [i|] eqn:Hi.
    + apply indexOf_Some in Hi as [Hi _].
      assert (i = length (listeners σ)) as ->.
      { pose proof (lookup_lt_Some _ _ _ Hi) as Hlt.
        rewrite length_app in Hlt. cbn in Hlt.
        destruct (decide (i < length (listeners σ))) as [Hlt'|]; [|lia].
        rewrite lookup_app_l in Hi by done.
        destruct Hl. apply list_elem_of_lookup. eauto. }
      rewrite delete_take_drop, take_app_length.
      rewrite drop_ge by (rewrite length_app; cbn; lia).
      rewrite app_nil_r. by destruct σ.
    + apply indexOf_None in Hi. destruct Hi.
      apply elem_of_app. right. left.
Qed.

Lemma X11_cleanup_removes_earliest_registration_witness :
  exec (unsubscribe 7) (exec (subscribe 7) init) = init.
Proof.
  refine (proj2 (proj2 (proj2 (proj2
            (X11_cleanup_removes_earliest_registration init 7)))) _).
  apply not_elem_of_nil.
Defined.

(** ** From creation to expiry *)

Section lifecycle.
Implicit Types (σ : Store).

Lemma toast_memoryState σ props :
  memoryState (exec (toast props) σ) =
  mkState [ {| id := eval (toast props) σ;
               fields := <["onOpenChange" :=
                             VFun (OnOpenChange (eval (toast props) σ))]>
                           (<["open" := TOAST_OPEN]> props) |} ].
Proof.
  rewrite toast_eval, toast_exec, dispatch_memoryState.
  unfold add_action. by rewrite reducer_add.
Qed.
End lifecycle.

(** X12.  A toast from creation to expiry, in a reachable store:
    [toast(props)] makes it the only toast; its [dismiss] keeps it in the
    state with [open] set to false and leaves exactly one pending timeout
    for its id; and when that timeout fires the id has no entry and no
    pending timeout any more, while the state is the same as before the
    expiry: it still holds the closed toast. *)
Theorem X12_toast_dismiss_expiry (σ : Store) (props : gmap string value) :
  reachable σ →
  let X := eval (toast props) σ in
  let σ1 := exec (toast props) σ in
  let σ2 := exec (toast_dismiss X) σ1 in
  (∃ t, id t = X ∧ toasts (memoryState σ1) = [t] ∧
        toasts (memoryState σ2) = [close t]) ∧
  is_Some (toastTimeouts σ2 !! X) ∧ pending_for X σ2 = 1 ∧
  (∃ i h, pending σ2 !! i = Some (h, X)) ∧
  (∀ i h, pending σ2 !! i = Some (h, X) →
     let σ3 := exec (fire i) σ2 in
     memoryState σ3 = memoryState σ2 ∧ toastTimeouts σ3 !! X = None ∧
     pending_for X σ3 = 0).
Proof.
  intros Hreach. cbv zeta.
  set (X := eval (toast props) σ). set (σ1 := exec (toast props) σ).
  assert (X ≠ "") as HX.
  { unfold X. rewrite toast_eval. apply genId_nonempty. }
  assert (timers_ok σ1) as Hok1.
  { pose proof (do_event_timers_ok σ (EToast props)
                  (reachable_timers_ok σ Hreach)) as H.
    revert H. cbn [do_event]. by rewrite exec_bind, exec_ret. }
  unfold toast_dismiss, dismiss_action.
  set (σ2 := exec (dispatch (DISMISS_TOAST (Some X))) σ1).
  pose proof (dispatch_timers_ok σ1 (DISMISS_TOAST (Some X)) Hok1) as Hok2.
  fold σ2 in Hok2.
  destruct (dispatch_dismiss_timers σ1 X HX) as [Hm2 Hq2]. fold σ2 in Hm2, Hq2.
  assert (is_Some (toastTimeouts σ2 !! X)) as Hs2.
  { rewrite Hm2. apply addToRemoveQueue_scheduled. }
  assert (pending_for X σ2 = 1) as Hc2.
  { rewrite (Hok2 X). by destruct Hs2 as [h ->]. }
  pose proof (toast_memoryState σ props) as Hst1. fold X σ1 in Hst1.
  set (t := {| id := X; fields := _ |}) in Hst1.
  assert (memoryState σ2 = mkState [close t]) as Hst2.
  { unfold σ2. rewrite dispatch_memoryState, reducer_dismiss_eval, Hst1.
    cbn [toasts map dismiss_matches]. unfold t at 1. cbn [id].
    by rewrite bool_decide_eq_true_2. }
  split_and!.
  - exists t. by rewrite Hst1, Hst2.
  - done.
  - done.
  - unfold pending_for in Hc2.
    destruct (base.filter (λ p : nat * string, p.2 = X) (pending σ2))
      as [|[h Y] l] eqn:Hf; [done|].
    assert ((h, Y) ∈ base.filter (λ p : nat * string, p.2 = X) (pending σ2))
      as Hin by (rewrite Hf; left).
    apply list_elem_of_filter in Hin as [HY Hin]. cbn in HY. subst Y.
    apply list_elem_of_lookup in Hin as [i Hi]. eauto.
  - intros i h Hi.
    pose proof (fire_timers_ok σ2 i Hok2) as Hok3.
    revert Hok3. rewrite fire_exec, Hi. intros Hok3.
    set (σ3 := exec (dispatch (REMOVE_TOAST (Some X))) _) in *.
    assert (toastTimeouts σ3 !! X = None) as Hn3.
    { unfold σ3. rewrite dispatch_unfold. cbn [toastTimeouts].
      rewrite reducer_pure by done. cbn [toastTimeouts].
      apply lookup_delete_eq. }
    split_and!; [|done|by rewrite (Hok3 X), Hn3].
    unfold σ3. rewrite dispatch_memoryState. cbn [memoryState].
    rewrite reducer_remove, Hst2. cbn [toasts]. f_equal.
    rewrite filter_cons, filter_nil. by rewrite decide_True.
Qed.

Lemma X12_toast_dismiss_expiry_witness :
  pending_for "1"
    (exec (toast_dismiss "1") (exec (toast {["title" := VStr "Saved"]}) init))
  = 1.
Proof.
  exact (proj1 (proj2 (proj2
           (X12_toast_dismiss_expiry init {["title" := VStr "Saved"]}
              reach_init)))).
Defined.

(** * Properties of the sidebar navigation *)

Section sidebar.
Implicit Types (user : option User) (item : NavItem) (p s : string).

Lemma filter_none {A} (P : A → Prop) `{!∀ x, Decision (P x)} (l : list A) :
  (∀ x, x ∈ l → ¬ P x) → base.filter P l = [].
Proof.
  induction l as [|x l IH]; intros Hall; [done|].
  rewrite filter_cons, decide_False by (apply Hall; left).
  apply IH. intros y Hy. apply Hall. by right.
Qed.

Lemma prefix_nil_l s : String.prefix "" s = true.
Proof. by destruct s. Qed.

Lemma prefix_cons a b p s :
  String.prefix (String a p) (String b s) = true ↔
  a = b ∧ String.prefix p s = true.
Proof.
  cbn [String.prefix]. destruct (Ascii.ascii_dec a b); naive_solver.
Qed.

Lemma prefix_append p r : String.prefix p (p +:+ r) = true.
Proof.
  induction p as [|a p IH]; [apply prefix_nil_l|].
  cbn [String.append]. by apply prefix_cons.
Qed.

Lemma prefix_inv p s : String.prefix p s = true → ∃ r, s = p +:+ r.
Proof.
  revert s. induction p as [|a p IH]; intros s Hp; [by exists s|].
  destruct s as [|b s]; [done|].
  apply prefix_cons in Hp as [-> Hp].
  destruct (IH s Hp) as [r ->]. by exists r.
Qed.

(** Two prefixes of one string are prefixes of one another. *)
Lemma prefix_common p1 p2 s :
  String.prefix p1 s = true → String.prefix p2 s = true →
  String.prefix p1 p2 = true ∨ String.prefix p2 p1 = true.
Proof.
  revert p1 p2. induction s as [|c s IH]; intros p1 p2 H1 H2.
  - destruct p1; [|done]. left. apply prefix_nil_l.
  - destruct p1 as [|a p1]; [left; apply prefix_nil_l|].
    destruct p2 as [|b p2]; [right; apply prefix_nil_l|].
    apply prefix_cons in H1 as [-> H1]. apply prefix_cons in H2 as [-> H2].
    destruct (IH p1 p2 H1 H2) as [H|H]; [left|right]; by apply prefix_cons.
Qed.

Lemma nav_item_cases item :
  item ∈ navigationItems →
  path item ∈ ["/"; "/dashboard"; "/complaints"; "/tasks"; "/ward";
               "/maintenance"; "/messages"; "/reports"; "/admin/users";
               "/admin/config"] ∧
  ∀ item', item' ∈ navigationItems → path item' = path item → item' = item.
Proof.
  intros Hin. split.
  - unfold navigationItems in Hin.
    repeat (apply elem_of_cons in Hin as [->|Hin]; [cbn; set_solver|]).
    by apply elem_of_nil in Hin.
  - intros item' Hin' Heq. unfold navigationItems in Hin, Hin'.
    repeat (apply elem_of_cons in Hin as [->|Hin];
            [repeat (apply elem_of_cons in Hin' as [->|Hin'];
                     [first [reflexivity|discriminate Heq]|]);
             by apply elem_of_nil in Hin'|]).
    by apply elem_of_nil in Hin.
Qed.
End sidebar.

(** X13.  What the sidebar shows.  With no signed-in user it shows
    nothing.  The home item is shown to nobody.  A user whose role is not
    one of CITIZEN, WARD_OFFICER, MAINTENANCE_TEAM and ADMINISTRATOR (a
    GUEST, for one) sees an empty menu, and each of those four roles sees
    the dashboard and the complaints items.  The items under [/admin] are
    shown to administrators only.  The items shown come in the order of
    the table and have pairwise distinct paths, which the component uses as
    keys. *)
Theorem X13_sidebar_items_by_role :
  filteredNavItems None = [] ∧
  (∀ user item, item ∈ filteredNavItems user → path item ≠ "/") ∧
  (∀ r, r ∉ ["CITIZEN"; "WARD_OFFICER"; "MAINTENANCE_TEAM"; "ADMINISTRATOR"] →
        filteredNavItems (Some (mkUser r)) = []) ∧
  (∀ r, r ∈ ["CITIZEN"; "WARD_OFFICER"; "MAINTENANCE_TEAM"; "ADMINISTRATOR"] →
        take 2 (path <$> filteredNavItems (Some (mkUser r)))
        = ["/dashboard"; "/complaints"]) ∧
  (∀ u item, item ∈ filteredNavItems (Some u) →
        String.prefix "/admin" (path item) = true →
        role u = "ADMINISTRATOR") ∧
  (∀ user, filteredNavItems user `sublist_of` navigationItems ∧
           NoDup (path <$> filteredNavItems user)).
Proof.
  split_and!.
  - apply filter_none. by intros item _.
  - intros user item Hin Hroot.
    apply list_elem_of_filter in Hin as [Hshown _].
    unfold nav_item_shown in Hshown. destruct user as [u|]; [|done].
    by rewrite bool_decide_eq_true_2 in Hshown.
  - intros r Hr. apply filter_none. intros item Hin Hshown.
    unfold nav_item_shown in Hshown.
    destruct (decide (path item = "/")) as [Hroot|Hroot];
      [by rewrite bool_decide_eq_true_2 in Hshown|].
    rewrite bool_decide_eq_false_2 in Hshown by done.
    apply bool_decide_eq_true_1 in Hshown. cbn [role] in Hshown.
    unfold navigationItems in Hin.
    repeat (apply elem_of_cons in Hin as [->|Hin];
            [first [by destruct Hroot|cbn [roles] in Hshown; set_solver]|]).
    by apply elem_of_nil in Hin.
  - intros r Hr.
    repeat (apply elem_of_cons in Hr as [->|Hr]; [by vm_compute|]).
    by apply elem_of_nil in Hr.
  - intros u item Hin Hadmin.
    apply list_elem_of_filter in Hin as [Hshown Hin].
    unfold nav_item_shown in Hshown.
    destruct (bool_decide (path item = "/")); [done|].
    apply bool_decide_eq_true_1 in Hshown.
    unfold navigationItems in Hin.
    repeat (apply elem_of_cons in Hin as [->|Hin];
            [first [by vm_compute in Hadmin
                   |cbn [roles] in Hshown;
                    by apply list_elem_of_singleton in Hshown]|]).
    by apply elem_of_nil in Hin.
  - intros user.
    assert (filteredNavItems user `sublist_of` navigationItems) as Hsub
      by apply sublist_filter.
    split; [done|].
    eapply sublist_NoDup; [|by apply fmap_sublist].
    unfold navigationItems. cbn [fmap list_fmap path].
    repeat (apply NoDup_cons; split; [set_solver|]). apply NoDup_nil_2.
Qed.

(** X14.  The active-route test.  A navigation path other than the root is
    active exactly at the locations that start with it, itself and
    everything written after it included; the root is active at the root
    only.  At any location at most one item of the table is active. *)
Theorem X14_active_route :
  (∀ p rest, p ≠ "/" → isActiveRoute (p +:+ rest) p = true) ∧
  (∀ pathname p, p ≠ "/" →
     isActiveRoute pathname p = true → ∃ rest, pathname = p +:+ rest) ∧
  (∀ pathname, isActiveRoute pathname "/" = true ↔ pathname = "/") ∧
  (∀ pathname item item',
     item ∈ navigationItems → item' ∈ navigationItems →
     isActiveRoute pathname (path item) = true →
     isActiveRoute pathname (path item') = true →
     item = item').
Proof.
  split_and!.
  - intros p rest Hp. unfold isActiveRoute.
    rewrite bool_decide_eq_false_2 by done. apply prefix_append.
  - intros pathname p Hp. unfold isActiveRoute.
    rewrite bool_decide_eq_false_2 by done. apply prefix_inv.
  - intros pathname. unfold isActiveRoute.
    rewrite bool_decide_eq_true_2 by done. apply bool_decide_eq_true.
  - intros pathname item item' Hin Hin' Ha Ha'.
    destruct (nav_item_cases item Hin) as [Hp Hkey].
    destruct (nav_item_cases item' Hin') as [Hp' _].
    symmetry. apply Hkey; [done|].
    unfold isActiveRoute in Ha, Ha'.
    destruct (decide (path item = "/")) as [Hr|Hr];
      destruct (decide (path item' = "/")) as [Hr'|Hr'].
    + congruence.
    + rewrite bool_decide_eq_true_2 in Ha by done.
      rewrite bool_decide_eq_false_2 in Ha' by done.
      apply bool_decide_eq_true_1 in Ha. subst pathname.
      repeat (apply elem_of_cons in Hp' as [Hp'|Hp'];
              [rewrite Hp' in Ha', Hr'; first [done|by vm_compute in Ha']|]).
      by apply elem_of_nil in Hp'.
    + rewrite bool_decide_eq_false_2 in Ha by done.
      rewrite bool_decide_eq_true_2 in Ha' by done.
      apply bool_decide_eq_true_1 in Ha'. subst pathname.
      repeat (apply elem_of_cons in Hp as [Hp|Hp];
              [rewrite Hp in Ha, Hr; first [done|by vm_compute in Ha]|]).
      by apply elem_of_nil in Hp.
    + rewrite bool_decide_eq_false_2 in Ha by done.
      rewrite bool_decide_eq_false_2 in Ha' by done.
      pose proof (prefix_common _ _ _ Ha Ha') as Hc.
      repeat (apply elem_of_cons in Hp as [Hp|Hp];
              [rewrite Hp in Hc |- *;
               repeat (apply elem_of_cons in Hp' as [Hp'|Hp'];
                       [rewrite Hp' in Hc |- *;
                        first [reflexivity
                              |by destruct Hc as [Hc|Hc]; vm_compute in Hc]|]);
               by apply elem_of_nil in Hp'|]).
      by apply elem_of_nil in Hp.
Qed.

Lemma X14_active_route_witness :
  isActiveRoute "/admin/users/42" "/admin/users" = true.
Proof.
  refine (proj1 X14_active_route "/admin/users" "/42" _). discriminate.
Defined.

Lemma X13_sidebar_items_by_role_witness :
  filteredNavItems (Some (mkUser "GUEST")) = [].
Proof.
  refine (proj1 (proj2 (proj2 X13_sidebar_items_by_role)) "GUEST" _).
  set_solver.
Defined.

(** * Handles of an evicted toast *)

Lemma toast_count (σ : Store) (props : gmap string value) :
  count (exec (toast props) σ) = ((count σ + 1) mod MAX_SAFE_INTEGER)%N.
Proof.
  rewrite toast_exec, dispatch_unfold. cbn [count].
  rewrite reducer_pure by done. by rewrite genId_exec.
Qed.

(** X15.  Two toasts made in a row get different ids and the second evicts
    the first.  The handle of the evicted toast is then stale: its
    [update] leaves the state as it is, and its [dismiss] leaves the state
    as it is too but still schedules a removal timeout for the evicted
    id. *)
Theorem X15_stale_handle_of_evicted_toast (σ : Store)
    (propsA propsB partial : gmap string value) :
  let A := eval (toast propsA) σ in
  let σ1 := exec (toast propsA) σ in
  let B := eval (toast propsB) σ1 in
  let σ2 := exec (toast propsB) σ1 in
  A ≠ B ∧
  map id (toasts (memoryState σ2)) = [B] ∧
  memoryState (exec (toast_update A partial) σ2) = memoryState σ2 ∧
  memoryState (exec (toast_dismiss A) σ2) = memoryState σ2 ∧
  is_Some (toastTimeouts (exec (toast_dismiss A) σ2) !! A).
Proof.
  cbv zeta.
  set (A := eval (toast propsA) σ). set (σ1 := exec (toast propsA) σ).
  set (B := eval (toast propsB) σ1). set (σ2 := exec (toast propsB) σ1).
  assert (A ≠ B) as HAB.
  { unfold A, B. rewrite !toast_eval, !genId_eval. unfold σ1.
    rewrite toast_count. intros Heq. apply (inj pretty) in Heq.
    rewrite N.Div0.add_mod_idemp_l in Heq.
    replace (count σ + 1)%N with (count σ + 1 + 0)%N in Heq at 1 by lia.
    apply mod_window_inj in Heq; done. }
  pose proof (toast_memoryState σ1 propsB) as Hst2. fold B σ2 in Hst2.
  assert (A ≠ "") as HA.
  { unfold A. rewrite toast_eval. apply genId_nonempty. }
  split_and!.
  - done.
  - by rewrite Hst2.
  - unfold toast_update, update_action.
    rewrite dispatch_memoryState, reducer_update, Hst2.
    cbn [toasts map update_matches pid id].
    by rewrite bool_decide_eq_false_2 by congruence.
  - unfold toast_dismiss, dismiss_action.
    rewrite dispatch_memoryState, reducer_dismiss_eval, Hst2.
    cbn [toasts map dismiss_matches id].
    by rewrite bool_decide_eq_false_2 by congruence.
  - unfold toast_dismiss, dismiss_action.
    destruct (dispatch_dismiss_timers σ2 A HA) as [-> _].
    apply addToRemoveQueue_scheduled.
Qed.
